(** * D2Q9 lattice Boltzmann step with an undulating fin

    A shallow embedding of [scripts/undulating_fin_2d.py]: the direction
    table, the equilibrium model, the fin geometry generator and the
    collision / streaming / bounce-back / recovery step.

    Arithmetic: [float64] values are idealised as real numbers ([R]), so
    every equation below is exact; rounding error, overflow and the IEEE
    special values are outside the model.  numpy's true division by zero
    yields inf/nan with a warning and no exception; the statements about a
    quotient therefore carry the hypothesis that the divisor is not zero.

    Arrays: a numpy array of shape (nz, nx) is a list of nz rows of nx
    entries, indexed first by z and then by x; the populations, of shape
    (9, nz, nx), are a list of nine such grids.

    State: the script updates its global arrays in place; here every
    function takes the arrays it reads and returns the ones it writes.
    Exceptions are results of type [result].

    The second script, [scripts/gait_stability.py] (the two phase-shifted
    gait waves and their trough markers), is embedded after the solver,
    with the same conventions; what it hands to the plot elements is the
    record [frame_data]. *)

From Stdlib Require Import Reals Lra Lia ZArith.
From Stdlib Require Import Sorted.
From stdpp Require Import base tactics option list.

Open Scope R_scope.

(** ** Arrays *)

Abbreviation grid A := (list (list A)) (only parsing).
Abbreviation pops := (list (list (list R))) (only parsing).

#[global] Instance R_inhabited : Inhabited R := populate 0.

Section Arrays.
Context {A : Type}.

(** [g[z, x]] as an optional read. *)
Definition glookup (g : grid A) (z x : nat) : option A :=
  g !! z ≫= (.!! x).

(** The shape (nz, nx). *)
Definition shape (nz nx : nat) (g : grid A) : Prop :=
  length g = nz ∧ Forall (λ row, length row = nx) g.

(** [np.full((nz, nx), v)], which covers [np.zeros] and [np.ones]. *)
Definition np_full (nz nx : nat) (v : A) : grid A :=
  replicate nz (replicate nx v).

(** [g[:, :] = v]: fill in place, the shape is kept. *)
Definition grid_fill (g : grid A) (v : A) : grid A :=
  fmap (M := list) (fmap (M := list) (λ _ : A, v)) g.

(** [g[z, x] = v] for an index pair that is in range. *)
Definition grid_set (g : grid A) (z x : nat) (v : A) : grid A :=
  alter (<[x := v]>) z g.

(** [np.roll(l, shift)] along the only axis of [l]: the entry at [j]
    moves to [(j + shift) mod n]. *)
Definition np_roll {B : Type} (shift : Z) (l : list B) : list B :=
  rotate (Z.to_nat ((- shift) `mod` Z.of_nat (length l))) l.

(** [np.roll(np.roll(g, sx, axis=1), sz, axis=0)]. *)
Definition roll2 (sx sz : Z) (g : grid A) : grid A :=
  np_roll sz (np_roll sx <$> g).

(** [row[m]] for a boolean mask [m]: the selected entries, in order. *)
Fixpoint take_masked (row : list A) (m : list bool) : list A :=
  match row, m with
  | v :: row', b :: m' =>
      if b then v :: take_masked row' m' else take_masked row' m'
  | _, _ => []
  end.

(** [g[m]]: boolean-mask indexing returns a flat copy of the selected
    entries in row-major order. *)
Definition mask_get (g : grid A) (m : grid bool) : list A :=
  concat (zip_with take_masked g m).

(** One row of [g[m] = vals]: consumes one value per selected entry and
    returns the values left over.  numpy raises when the number of values
    differs from the number of selected entries; in this program values
    always come from [g'[m]] with the same mask and shape. *)
Fixpoint put_masked (row : list A) (m : list bool) (vals : list A)
  : list A * list A :=
  match row, m with
  | v :: row', b :: m' =>
      if b then
        match vals with
        | u :: vals' =>
            let '(r, rest) := put_masked row' m' vals' in (u :: r, rest)
        | [] => (row, [])
        end
      else
        let '(r, rest) := put_masked row' m' vals in (v :: r, rest)
  | _, _ => (row, vals)
  end.

(** [g[m] = vals]. *)
Fixpoint mask_set (g : grid A) (m : grid bool) (vals : list A) : grid A :=
  match g, m with
  | row :: g', mr :: m' =>
      let '(r, rest) := put_masked row mr vals in r :: mask_set g' m' rest
  | _, _ => g
  end.

(** [g[m] = v] with a scalar [v]. *)
Definition mask_fill (g : grid A) (m : grid bool) (v : A) : grid A :=
  zip_with (zip_with (λ x (b : bool), if b then v else x)) g m.

(** [np.where(m, a, b)], used to describe masked assignment. *)
Fixpoint where_row (m : list bool) (a b : list A) : list A :=
  match m, a, b with
  | c :: m', x :: a', y :: b' => (if c then x else y) :: where_row m' a' b'
  | _, _, _ => []
  end.

Fixpoint np_where (m : grid bool) (a b : grid A) : grid A :=
  match m, a, b with
  | mr :: m', ar :: a', br :: b' => where_row mr ar br :: np_where m' a' b'
  | _, _, _ => []
  end.
End Arrays.

(** Elementwise operations. *)
Definition gmap {A B} (op : A → B) (g : grid A) : grid B :=
  fmap (M := list) (fmap (M := list) op) g.
Definition gzip {A B C} (op : A → B → C) (a : grid A) (b : grid B) : grid C :=
  zip_with (zip_with op) a b.

(** [for i in range(n): s = body(i, s)]. *)
Definition for_range {S : Type} (n : nat) (body : nat → S → S) (s : S) : S :=
  fold_left (λ s i, body i s) (seq 0 n) s.

(** ** Direction table *)

Definition c : list (Z * Z) :=
  [ (0, 0); (1, 0); (0, 1); (-1, 0); (0, -1);
    (1, 1); (-1, 1); (-1, -1); (1, -1) ]%Z.

Definition w : list R :=
  [ 4/9; 1/9; 1/9; 1/9; 1/9; 1/36; 1/36; 1/36; 1/36 ].

Definition opposite : list nat := [0; 3; 4; 1; 2; 7; 8; 5; 6]%nat.

(** ** Parameters

    The module-level constants of the script, gathered in a record; the
    script's own values are [default_config]. *)

Record config : Type := Config {
  nx : nat;          (* grid points in x (streamwise direction) *)
  nz : nat;          (* grid points in z (fin-width direction) *)
  omega : R;         (* relaxation parameter *)
  H_fin : R;         (* fin thickness *)
  A_fin : R;         (* wave amplitude in z *)
  lambda_fin : R;    (* spatial wavelength along x *)
  f_wave : R;        (* temporal wave frequency *)
  z_root : R;        (* root offset above the bottom wall *)
  x_start : Z;       (* x-span where the fin exists *)
  x_end : Z          (* exclusive upper bound *)
}.

Definition default_config : config := {|
  nx := 280; nz := 120; omega := 1.7;
  H_fin := 18; A_fin := 8; lambda_fin := 280 / 1.5; f_wave := 0.001;
  z_root := 8; x_start := 30; x_end := 280 - 30 |}.

(** ** Errors

    The exceptions the step can end with: an index out of bounds, and the
    conversion of a NaN to an integer. *)

Inductive py_exn : Type := IndexError | ValueError.

Inductive result (A : Type) : Type :=
  | Ok (a : A)
  | Raise (e : py_exn).
Arguments Ok {A} a.
Arguments Raise {A} e.

#[global] Instance result_ret : MRet result := λ A a, Ok a.
#[global] Instance result_bind : MBind result := λ A B k r,
  match r with Ok a => k a | Raise e => Raise e end.

(** ** Equilibrium model *)

(** Elementwise combination of three arrays. *)
Definition gzip3 {A B C D} (op : A → B → C → D)
    (a : grid A) (b : grid B) (c : grid C) : grid D :=
  gzip (λ (p : A * B) z, op p.1 p.2 z) (gzip pair a b) c.

(** The value of [feq[i]] at one node of density [r] and velocity [(u, v)],
    for the weight [wi] and the direction [ci]; the properties of
    [equilibrium] are stated with it. *)
Definition feq_node (wi : R) (ci : Z * Z) (r u v : R) : R :=
  let cu := 3.0 * (IZR ci.1 * u + IZR ci.2 * v) in
  wi * r * (1 + cu + 0.5 * cu ^ 2 - 1.5 * (u ^ 2 + v ^ 2)).

(** [equilibrium(rho, ux, uz)]: both loops write entry [i] only, from the
    entries [i] of the tables. *)
Definition equilibrium (rho ux uz : grid R) : pops :=
  let usq := gzip (λ u v, u ^ 2 + v ^ 2) ux uz in
  let cu := (λ ci : Z * Z, gzip (λ u v, 3.0 * (IZR ci.1 * u + IZR ci.2 * v)) ux uz)
              <$> c in
  zip_with (λ wi cui,
      gzip3 (λ r cv us, wi * r * (1 + cv + 0.5 * cv ^ 2 - 1.5 * us)) rho cui usq)
    w cu.

(** ** Static walls *)

(** [solid_static]: all false, then rows [0] and [-1] set to true. *)
Definition solid_static (cfg : config) : grid bool :=
  <[ (nz cfg - 1)%nat := replicate (nx cfg) true ]>
    (<[ 0%nat := replicate (nx cfg) true ]> (np_full (nz cfg) (nx cfg) false)).

(** ** Fin mask generation *)

(** A start or stop bound of a slice with step one, on a sequence of
    length [n]. *)
Definition py_slice_bound (n : nat) (i : Z) : nat :=
  if (i <? 0)%Z then Z.to_nat (Z.max (i + Z.of_nat n) 0)
  else Z.to_nat (Z.min i (Z.of_nat n)).

(** [l[start:stop]]. *)
Definition py_slice {A} (l : list A) (start stop : Z) : list A :=
  let lo := py_slice_bound (length l) start in
  let hi := py_slice_bound (length l) stop in
  take (hi - lo) (drop lo l).

(** [np.arange(n)]. *)
Definition np_arange (n : nat) : list Z := Z.of_nat <$> seq 0 n.

(** [int(r)]: truncation towards zero. *)
Definition py_int (r : R) : Z := if Rle_dec 0 r then Zfloor r else Zceil r.

(** [max(a, b)]: the first argument unless the second is larger. *)
Definition py_max (a b : R) : R := if Rlt_dec a b then b else a.

(** [round(r)]: to the nearest integer, ties to the even one. *)
Definition py_round (r : R) : Z :=
  let fl := Zfloor r in
  let d := r - IZR fl in
  if Rlt_dec d (1 / 2) then fl
  else if Rlt_dec (1 / 2) d then (fl + 1)%Z
  else if Z.even fl then fl else (fl + 1)%Z.

(** [np.linspace(start, stop, num)]: [num] evenly spaced samples, the last
    one set to [stop]. *)
Definition np_linspace (start stop : R) (num : nat) : list R :=
  let step := (stop - start) / (INR num - 1) in
  let y := (λ i : nat, start + INR i * step) <$> seq 0 num in
  if (1 <? num)%nat then <[ (num - 1)%nat := stop ]> y else y.

(** [np.hypot(a, b)]. *)
Definition np_hypot (a b : R) : R := sqrt (a * a + b * b).

(** [xs[x_start:x_end]]: the active columns. *)
Definition xs_local (cfg : config) : list Z :=
  py_slice (np_arange (nx cfg)) (x_start cfg) (x_end cfg).

(** The centerline profile [z_center] at time [t]. *)
Definition z_center (cfg : config) (t : R) : list R :=
  let phase :=
    (λ x : Z, 2.0 * PI * ((IZR x - IZR (x_start cfg)) / lambda_fin cfg
                          - f_wave cfg * t)) <$> xs_local cfg in
  (λ ph, z_root cfg + 0.5 * H_fin cfg + A_fin cfg * sin ph) <$> phase.

(** The slope [dzdx]: central differences inside, one-sided differences at
    the two ends; [z_center[1]] is out of bounds when fewer than two columns
    are active. *)
Definition dzdx_of (zc : list R) : result (list R) :=
  let n := length zc in
  let inner := zip_with (λ a b, 0.5 * (a - b)) (drop 2 zc) (take (n - 2) zc) in
  let d1 := take 1 (replicate n 0) ++ inner ++ drop (n - 1) (replicate n 0) in
  match zc !! 1%nat, zc !! 0%nat, zc !! (n - 1)%nat, zc !! (n - 2)%nat with
  | Some z1, Some z0, Some zl, Some zl' =>
      Ok (<[ (n - 1)%nat := zl - zl' ]> (<[ 0%nat := z1 - z0 ]> d1))
  | _, _, _, _ => Raise IndexError
  end.

(** Number of sample points across the thickness, and their offsets. *)
Definition n_samples (cfg : config) : nat :=
  Z.to_nat (py_int (py_max 6 (2 * H_fin cfg))).

Definition s_vals (cfg : config) : list R :=
  np_linspace (-0.5 * H_fin cfg) (0.5 * H_fin cfg) (n_samples cfg).

(** Whether the tangent [(1, dzdx_local)] has norm zero. *)
Definition tangent_degenerate (dzdx_local : R) : bool :=
  if Req_dec_T (np_hypot 1.0 dzdx_local) 0 then true else false.

(** The normal [(nx_hat, nz_hat)] at a centerline point. *)
Definition fin_normal (dzdx_local : R) : R * R :=
  let tx := 1.0 in
  let tz := dzdx_local in
  let norm_t := np_hypot tx tz in
  if tangent_degenerate dzdx_local then (0.0, 1.0)
  else
    let tx := tx / norm_t in
    let tz := tz / norm_t in
    (tz, - tx).

(** The test [0 < ix < nx-1 and 1 <= iz < nz-1]. *)
Definition in_interior (cfg : config) (iz ix : Z) : bool :=
  (0 <? ix)%Z && (ix <? Z.of_nat (nx cfg) - 1)%Z &&
  (1 <=? iz)%Z && (iz <? Z.of_nat (nz cfg) - 1)%Z.

(** The body of the inner loop, for one offset [s]. *)
Definition mark_sample (cfg : config) (x_c : Z) (z_c : R) (n_hat : R * R)
    (fin_mask : grid bool) (s : R) : grid bool :=
  let xk := IZR x_c + n_hat.1 * s in
  let zk := z_c + n_hat.2 * s in
  let ix := py_round xk in
  let iz := py_round zk in
  if in_interior cfg iz ix
  then grid_set fin_mask (Z.to_nat iz) (Z.to_nat ix) true
  else fin_mask.

(** The body of the outer loop, for one centerline point. *)
Definition mark_column (cfg : config) (fin_mask : grid bool)
    (col : Z * R * R) : grid bool :=
  let '(x_c, z_c, dzdx_local) := col in
  fold_left (mark_sample cfg x_c z_c (fin_normal dzdx_local)) (s_vals cfg) fin_mask.

(** The strips laid down along the centerline [zc]. *)
Definition rasterize (cfg : config) (zc : list R) : result (grid bool) :=
  dzdx ← dzdx_of zc;
  if Req_dec_T (lambda_fin cfg) 0 then
    (* every phase is NaN, and the first [round] fails on it *)
    Raise ValueError
  else
    Ok (fold_left (mark_column cfg) (zip (zip (xs_local cfg) zc) dzdx)
                  (np_full (nz cfg) (nx cfg) false)).

(** [update_fin_mask(t)]: the new content of the global [fin_mask], which
    is cleared first and keeps its shape (nz, nx). *)
Definition update_fin_mask (cfg : config) (t : R) : result (grid bool) :=
  rasterize cfg (z_center cfg t).

(** ** The step *)

(** Phase 2, BGK collision: [f[:] = (1.0 - omega) * f + omega * feq]. *)
Definition collide (cfg : config) (f : pops) (rho ux uz : grid R) : pops :=
  let feq := equilibrium rho ux uz in
  zip_with (gzip (λ fv fe, (1.0 - omega cfg) * fv + omega cfg * fe)) f feq.

(** Phase 3, streaming: entry [i] is rolled by [c[i]], along x then z. *)
Definition stream (f : pops) : pops :=
  zip_with (λ (ci : Z * Z) fi, roll2 ci.1 ci.2 fi) c f.

(** Phase 4, bounce-back at all solid nodes. *)
Definition bounce_back_body (solid : grid bool) (i : nat) (f : pops) : pops :=
  let ip := opposite !!! i in
  let fi := mask_get (f !!! i) solid in
  let fip := mask_get (f !!! ip) solid in
  let f1 := <[i := mask_set (f !!! i) solid fip]> f in
  <[ip := mask_set (f1 !!! ip) solid fi]> f1.

Definition bounce_back (solid : grid bool) (f : pops) : pops :=
  for_range 9 (bounce_back_body solid) f.

(** Phase 5, the macroscopic fields, written into the arrays passed in. *)
Definition recover_rho (f : pops) (rho : grid R) : grid R :=
  fold_left (gzip Rplus) f (grid_fill rho 0).

Definition momentum (comp : Z * Z → Z) (f : pops) (u : grid R) : grid R :=
  fold_left (λ acc (p : Z * Z * list (list R)),
               gzip Rplus acc (gmap (λ v, IZR (comp p.1) * v) p.2))
            (zip c f) (grid_fill u 0.0).

Definition recover (f : pops) (rho ux uz : grid R) (solid : grid bool)
  : grid R * grid R * grid R :=
  let rho := recover_rho f rho in
  let ux := momentum fst f ux in
  let uz := momentum snd f uz in
  let ux := gzip Rdiv ux rho in
  let uz := gzip Rdiv uz rho in
  let ux := mask_fill ux solid 0.0 in
  let uz := mask_fill uz solid 0.0 in
  (rho, ux, uz).

(** [collide_and_stream(f, rho, ux, uz, t)]. *)
Definition collide_and_stream (cfg : config) (f : pops) (rho ux uz : grid R)
    (t : R) : result (pops * grid R * grid R * grid R * grid bool) :=
  fin_mask ← update_fin_mask cfg t;
  let solid := gzip orb (solid_static cfg) fin_mask in
  let f := collide cfg f rho ux uz in
  let f := stream f in
  let f := bounce_back solid f in
  let '(rho, ux, uz) := recover f rho ux uz solid in
  Ok (f, rho, ux, uz, solid).

(** The loop of [update(frame)], without the rendering: [plot_every] steps
    at the times [frame * plot_every + k]. *)
Fixpoint run_steps (cfg : config) (ts : list R)
    (s : pops * grid R * grid R * grid R) : result (pops * grid R * grid R * grid R) :=
  match ts with
  | [] => Ok s
  | t :: ts' =>
      let '(f, rho, ux, uz) := s in
      out ← collide_and_stream cfg f rho ux uz t;
      let '(f, rho, ux, uz, _) := out in
      run_steps cfg ts' (f, rho, ux, uz)
  end.

Definition update (cfg : config) (plot_every frame : nat)
    (s : pops * grid R * grid R * grid R) : result (pops * grid R * grid R * grid R) :=
  run_steps cfg ((λ k : nat, INR (frame * plot_every + k)) <$> seq 0 plot_every) s.

(** ** Initial state *)

Definition rho_init (cfg : config) : grid R := np_full (nz cfg) (nx cfg) 1.
Definition u_init (cfg : config) : grid R := np_full (nz cfg) (nx cfg) 0.
Definition f_init (cfg : config) : pops :=
  equilibrium (rho_init cfg) (u_init cfg) (u_init cfg).

(** ** Quantities the properties are stated with *)

(** [g[z][x]] for a node that is in range. *)
Definition at_ {A} `{Inhabited A} (g : grid A) (z x : nat) : A := (g !!! z) !!! x.

Definition Rsum (l : list R) : R := foldr Rplus 0 l.

(** The nine populations of a node, and their moments. *)
Definition node (f : pops) (z x : nat) : list R := (λ g, at_ g z x) <$> f.
Definition node_mass (f : pops) (z x : nat) : R := Rsum (node f z x).
Definition node_mom (comp : Z * Z → Z) (f : pops) (z x : nat) : R :=
  Rsum (zip_with (λ ci v, IZR (comp ci) * v) c (node f z x)).

(** The index [i mod n] of a periodic axis of length [n]. *)
Definition wrap (n : nat) (i : Z) : nat := Z.to_nat (i `mod` Z.of_nat n).

#[global] Instance Z_pair_inhabited : Inhabited (Z * Z) := populate (0, 0)%Z.

(** The population of direction [i] that arrives at node (z, x): collided
    at the upstream node and carried along [c[i]]. *)
Definition upstream (nz nx : nat) (i z x : nat) : nat * nat :=
  (wrap nz (Z.of_nat z - (c !!! i).2), wrap nx (Z.of_nat x - (c !!! i).1)).

Definition collided (cfg : config) (f : pops) (rho ux uz : grid R) (i z x : nat) : R :=
  (1.0 - omega cfg) * at_ (f !!! i) z x +
  omega cfg * feq_node (w !!! i) (c !!! i) (at_ rho z x) (at_ ux z x) (at_ uz z x).

(** The mass on the whole lattice. *)
Definition grid_sum (g : grid R) : R := Rsum (Rsum <$> g).
Definition total_mass (f : pops) : R := Rsum (grid_sum <$> f).

(** Populations of shape (9, nz, nx). *)
Definition pops_shape (nz nx : nat) (f : pops) : Prop :=
  length f = 9%nat ∧ Forall (shape nz nx) f.

(** A state of the shapes the program allocates. *)
Definition state_shape (cfg : config) (s : pops * grid R * grid R * grid R) : Prop :=
  let '(f, rho, ux, uz) := s in
  pops_shape (nz cfg) (nx cfg) f ∧ shape (nz cfg) (nx cfg) rho ∧
  shape (nz cfg) (nx cfg) ux ∧ shape (nz cfg) (nx cfg) uz.

(** Parameters on which the geometry generator raises nothing: at least two
    active columns and a wavelength that is not zero. *)
Definition wf_geometry (cfg : config) : Prop :=
  (2 ≤ length (xs_local cfg))%nat ∧ lambda_fin cfg ≠ 0.

(** The same, and at least one row, for the two wall rows to exist. *)
Definition wf_config (cfg : config) : Prop :=
  (2 ≤ length (xs_local cfg))%nat ∧ lambda_fin cfg ≠ 0 ∧ (1 ≤ nz cfg)%nat.

(** The nodes the strips may mark. *)
Definition interior_only (cfg : config) (m : grid bool) : Prop :=
  ∀ iz ix, glookup m iz ix = Some true →
    (1 ≤ iz ≤ nz cfg - 2)%nat ∧ (1 ≤ ix ≤ nx cfg - 2)%nat.

(** ** Inputs of the examples *)

(** Populations that are uniform in space: direction [i] holds [vs[i]] at
    every node. *)
Definition uniform_pops (nz nx : nat) (vs : list R) : pops := np_full nz nx <$> vs.

(** The negated rest state. *)
Definition f_neg (cfg : config) : pops :=
  uniform_pops (nz cfg) (nx cfg) ((λ wi, - wi) <$> w).
Definition rho_neg (cfg : config) : grid R := np_full (nz cfg) (nx cfg) (-1).

(** Uniform flow towards east. *)
Definition f_east (cfg : config) : pops :=
  uniform_pops (nz cfg) (nx cfg) [0; 1; 0; 0; 0; 0; 0; 0; 0].

(** A fluid at rest whose density is 2 on row 5 and 1 elsewhere: only the
    rest population is not zero. *)
Definition rho_bump (cfg : config) : grid R :=
  <[ 5%nat := replicate (nx cfg) 2 ]> (np_full (nz cfg) (nx cfg) 1).
Definition f_bump (cfg : config) : pops :=
  rho_bump cfg :: replicate 8 (np_full (nz cfg) (nx cfg) 0).

(** A flat fin of thickness 1 over two columns of a 4 x 4 grid. *)
Definition flat_config : config := {|
  nx := 4; nz := 4; omega := 1.7;
  H_fin := 1; A_fin := 0; lambda_fin := 1; f_wave := 1;
  z_root := 1; x_start := 1; x_end := 3 |}.

(** ** Further quantities of the solver *)

(** [np.sqrt(ux**2 + uz**2)], the field [speed] that the script and
    [update] hand to the image. *)
Definition speed (ux uz : grid R) : grid R :=
  gzip (λ u v, sqrt (u ^ 2 + v ^ 2)) ux uz.

(** The momentum on the whole lattice, along one axis. *)
Definition total_mom (comp : Z * Z → Z) (f : pops) : R :=
  Rsum (zip_with (λ ci g, IZR (comp ci) * grid_sum g) c f).

(** The second moment of the populations of a node along two axes. *)
Definition node_mom2 (ca cb : Z * Z → Z) (f : pops) (z x : nat) : R :=
  Rsum (zip_with (λ ci v, IZR (ca ci) * IZR (cb ci) * v) c (node f z x)).


(** The band around the centerline that the strips can reach: within half
    a thickness and half a cell of an active column in x, and within the
    amplitude, the thickness and half a cell of the root in z. *)
Definition in_fin_band (cfg : config) (iz ix : nat) : Prop :=
  (∃ x_c, x_c ∈ xs_local cfg ∧
          Rabs (INR ix - IZR x_c) <= 0.5 * H_fin cfg + 0.5) ∧
  z_root cfg - Rabs (A_fin cfg) - 0.5 <= INR iz
    <= z_root cfg + H_fin cfg + Rabs (A_fin cfg) + 0.5.

(** The flat fin with a single active column. *)
Definition short_config : config := {|
  nx := 4; nz := 4; omega := 1.7;
  H_fin := 1; A_fin := 0; lambda_fin := 1; f_wave := 1;
  z_root := 1; x_start := 1; x_end := 2 |}.

(** * Gait waves ([scripts/gait_stability.py]) *)

#[global] Instance Rlt_decision : RelDecision Rlt := Rlt_dec.

(** [l[start:]]. *)
Definition py_slice_from {A} (l : list A) (start : Z) : list A :=
  drop (py_slice_bound (length l) start) l.

(** [a < b] on two arrays of one length. *)
Definition np_less (a b : list R) : list bool :=
  zip_with (λ x y, bool_decide (x < y)) a b.

(** [np.where(m)[0]]: the indices of the true entries, in increasing
    order; [nonzero_from k m] counts from [k]. *)
Fixpoint nonzero_from (k : nat) (m : list bool) : list nat :=
  match m with
  | [] => []
  | b :: m' => if b then k :: nonzero_from (S k) m' else nonzero_from (S k) m'
  end.

Definition np_nonzero (m : list bool) : list nat := nonzero_from 0 m.

(** [xs[idx]] for an array [idx] of indices that are not negative: an
    index past the end raises. *)
Fixpoint np_take {A} (xs : list A) (idx : list nat) : result (list A) :=
  match idx with
  | [] => Ok []
  | i :: idx' =>
      match xs !! i with
      | Some v => rest ← np_take xs idx'; Ok (v :: rest)
      | None => Raise IndexError
      end
  end.

(** The array [trough_indices] of [find_troughs]. *)
Definition trough_indices (wave_heights : list R) : list nat :=
  let mid := py_slice wave_heights 1 (-1) in
  let is_trough :=
    zip_with andb (np_less mid (py_slice wave_heights 0 (-2)))
                  (np_less mid (py_slice_from wave_heights 2)) in
  (λ i, (i + 1)%nat) <$> np_nonzero is_trough.

(** [find_troughs(wave_heights)], which reads the global [x_positions]. *)
Definition find_troughs (x_positions wave_heights : list R) : result (list R) :=
  np_take x_positions (trough_indices wave_heights).

(** The wave parameters; [n_points] is the number of samples of
    [x_positions]. *)
Record gait_config : Type := GaitConfig {
  FIN_LENGTH : R;
  AMPLITUDE : R;
  TEMPORAL_FREQ : R;
  SPATIAL_FREQ : R;
  n_points : nat;
  left_baseline : R;
  right_baseline : R
}.

Definition default_gait : gait_config := {|
  FIN_LENGTH := 330.0; AMPLITUDE := 0.3;
  TEMPORAL_FREQ := 0.5 * PI; SPATIAL_FREQ := 3 * PI / 330.0;
  n_points := 800; left_baseline := 1.0; right_baseline := -1.0 |}.

Definition x_positions (g : gait_config) : list R :=
  np_linspace 0 (FIN_LENGTH g) (n_points g).

(** The two height arrays of [update_frame]. *)
Definition left_heights (g : gait_config) (frame_number : nat) : list R :=
  let time := INR frame_number * 0.05 in
  (λ x, left_baseline g +
        AMPLITUDE g * sin (SPATIAL_FREQ g * x - TEMPORAL_FREQ g * time))
    <$> x_positions g.

Definition right_heights (g : gait_config) (frame_number : nat) : list R :=
  let time := INR frame_number * 0.05 in
  (λ x, right_baseline g +
        AMPLITUDE g * sin (SPATIAL_FREQ g * x - TEMPORAL_FREQ g * time + PI))
    <$> x_positions g.

(** What [update_frame] hands to the four plot elements: the x and the y
    data of each. *)
Record frame_data : Type := FrameData {
  left_wave : list R * list R;
  right_wave : list R * list R;
  left_troughs : list R * list R;
  right_troughs : list R * list R
}.

Definition update_frame (g : gait_config) (frame_number : nat) : result frame_data :=
  let lh := left_heights g frame_number in
  let rh := right_heights g frame_number in
  left_trough_x ← find_troughs (x_positions g) lh;
  right_trough_x ← find_troughs (x_positions g) rh;
  Ok {| left_wave := (x_positions g, lh);
        right_wave := (x_positions g, rh);
        left_troughs :=
          (left_trough_x, replicate (length left_trough_x) (left_baseline g));
        right_troughs :=
          (right_trough_x, replicate (length right_trough_x) (right_baseline g)) |}.

(** [total_frames]. *)
Definition total_frames (g : gait_config) : nat :=
  Z.to_nat (py_int (2 * PI / TEMPORAL_FREQ g / 0.05)).

(** ** Quantities the gait properties are stated with *)

(** Entry [i] has both neighbours and is strictly below each. *)
Definition local_min (wh : list R) (i : nat) : Prop :=
  ∃ a b c, (1 ≤ i)%nat ∧ wh !! (i - 1)%nat = Some a ∧ wh !! i = Some b ∧
           wh !! (i + 1)%nat = Some c ∧ b < a ∧ b < c.

(** The phase of the left wave at position [x]. *)
Definition gait_phase (g : gait_config) (frame_number : nat) (x : R) : R :=
  SPATIAL_FREQ g * x - TEMPORAL_FREQ g * (INR frame_number * 0.05).

(** * Properties *)

(** ** The array operations on small inputs *)

Example np_roll_right : np_roll 1 [1; 2; 3; 4]%nat = [4; 1; 2; 3]%nat.
Proof. reflexivity. Qed.

Example np_roll_left : np_roll (-1) [1; 2; 3; 4]%nat = [2; 3; 4; 1]%nat.
Proof. reflexivity. Qed.

Example roll2_diagonal :
  roll2 (-1) 1 [[1; 2; 3]; [4; 5; 6]; [7; 8; 9]]%nat =
    [[8; 9; 7]; [2; 3; 1]; [5; 6; 4]]%nat.
Proof. reflexivity. Qed.

Example mask_get_row_major :
  mask_get [[1; 2; 3]; [4; 5; 6]]%nat [[true; false; true]; [false; true; false]] =
    [1; 3; 5]%nat.
Proof. reflexivity. Qed.

Example mask_set_row_major :
  mask_set [[1; 2; 3]; [4; 5; 6]]%nat [[true; false; true]; [false; true; false]]
           [10; 20; 30]%nat =
    [[10; 2; 20]; [4; 30; 6]]%nat.
Proof. reflexivity. Qed.

Example py_slice_inside : py_slice [0; 1; 2; 3; 4; 5]%nat 2 4 = [2; 3]%nat.
Proof. reflexivity. Qed.

Example py_slice_clipped : py_slice [0; 1; 2; 3; 4; 5]%nat (-2) 9 = [4; 5]%nat.
Proof. reflexivity. Qed.

Example py_slice_empty : py_slice [0; 1; 2; 3; 4; 5]%nat 4 2 = @nil nat.
Proof. reflexivity. Qed.

Example solid_static_walls :
  solid_static flat_config =
    [ [true; true; true; true]; [false; false; false; false];
      [false; false; false; false]; [true; true; true; true] ].
Proof. reflexivity. Qed.

Example active_columns_default : length (xs_local default_config) = 220%nat.
Proof. reflexivity. Qed.

(** ** Shapes *)

Create HintDb shape discriminated.

Section ShapeLemmas.
Context {A : Type}.
Implicit Types (g a b : grid A) (m : grid bool).

Lemma shape_cons nz nx (row : list A) g :
  shape (S nz) nx (row :: g) ↔ length row = nx ∧ shape nz nx g.
Proof.
  unfold shape. rewrite Forall_cons. simpl. intuition lia.
Qed.

Lemma shape_nil nx : shape 0 nx (@nil (list A)).
Proof. split; [done | constructor]. Qed.

Lemma shape_inv_0 nx g : shape 0 nx g → g = [].
Proof. intros [H _]. by destruct g. Qed.

Lemma shape_inv_S nz nx g :
  shape (S nz) nx g → ∃ row g', g = row :: g' ∧ length row = nx ∧ shape nz nx g'.
Proof.
  destruct g as [|row g']; intros Hs; [destruct Hs as [? _]; done|].
  apply shape_cons in Hs as [? ?]. eauto.
Qed.

Lemma shape_np_full nz nx (v : A) : shape nz nx (np_full nz nx v).
Proof.
  split; [apply length_replicate|].
  apply Forall_replicate, length_replicate.
Qed.

Lemma shape_lookup nz nx g z row :
  shape nz nx g → g !! z = Some row → length row = nx.
Proof. intros [_ Hall] Hz. by apply (Forall_lookup_1 _ _ _ _ Hall Hz). Qed.

Lemma glookup_is_Some nz nx g z x :
  shape nz nx g → (z < nz)%nat → (x < nx)%nat → is_Some (glookup g z x).
Proof.
  intros Hs Hz Hx. unfold glookup.
  destruct (lookup_lt_is_Some_2 g z) as [row Hrow]; [destruct Hs; lia|].
  rewrite Hrow. simpl. apply lookup_lt_is_Some_2.
  by rewrite (shape_lookup _ _ _ _ _ Hs Hrow).
Qed.
End ShapeLemmas.

(** ** Masked reads and writes *)

Section MaskLemmas.
Context {A : Type}.
Implicit Types (g a b : grid A) (m : grid bool).

Lemma put_take_masked (mr : list bool) (row row' rest : list A) :
  length row = length mr → length row' = length mr →
  put_masked row mr (take_masked row' mr ++ rest) = (where_row mr row' row, rest).
Proof.
  revert row row'. induction mr as [|b mr IH]; intros [|v row] [|v' row'] Hl Hl';
    simplify_eq/=; try done.
  destruct b; simpl; by rewrite IH.
Qed.

(** Writing back under a mask what was read under it from an array of
    the same shape is [np.where] on the mask. *)
Lemma mask_set_get_app nz nx g g' m rest :
  shape nz nx g → shape nz nx g' → shape nz nx m →
  mask_set g m (mask_get g' m ++ rest) = np_where m g' g.
Proof.
  revert g g' m rest. induction nz as [|nz IH]; intros g g' m rest Hg Hg' Hm.
  - by rewrite (shape_inv_0 _ _ Hg), (shape_inv_0 _ _ Hm).
  - apply shape_inv_S in Hg as (r & g1 & -> & Hr & Hg).
    apply shape_inv_S in Hg' as (r' & g1' & -> & Hr' & Hg').
    apply shape_inv_S in Hm as (mr & m1 & -> & Hmr & Hm).
    unfold mask_get. simpl. rewrite <-(assoc_L (++)).
    rewrite put_take_masked by congruence.
    f_equal. by apply IH.
Qed.

Lemma mask_set_get nz nx g g' m :
  shape nz nx g → shape nz nx g' → shape nz nx m →
  mask_set g m (mask_get g' m) = np_where m g' g.
Proof.
  intros. rewrite <-(app_nil_r (mask_get g' m)). by eapply mask_set_get_app.
Qed.

Lemma where_row_same (mr : list bool) (row : list A) :
  length row = length mr → where_row mr row row = row.
Proof.
  revert row. induction mr as [|b mr IH]; intros [|v row] Hl; simplify_eq/=; try done.
  rewrite IH by done. by destruct b.
Qed.

Lemma where_row_cross (mr : list bool) (r1 r2 : list A) :
  length r1 = length mr → length r2 = length mr →
  where_row mr (where_row mr r1 r2) (where_row mr r2 r1) = r1.
Proof.
  revert r1 r2. induction mr as [|b mr IH]; intros [|v1 r1] [|v2 r2] H1 H2;
    simplify_eq/=; try done.
  rewrite IH by done. by destruct b.
Qed.

Lemma np_where_same nz nx m g :
  shape nz nx g → shape nz nx m → np_where m g g = g.
Proof.
  revert g m. induction nz as [|nz IH]; intros g m Hg Hm.
  - by rewrite (shape_inv_0 _ _ Hg), (shape_inv_0 _ _ Hm).
  - apply shape_inv_S in Hg as (r & g1 & -> & Hr & Hg).
    apply shape_inv_S in Hm as (mr & m1 & -> & Hmr & Hm).
    simpl. rewrite where_row_same by congruence. f_equal. by apply IH.
Qed.

(** Exchanging twice under the same mask restores the first array. *)
Lemma np_where_cross nz nx m a b :
  shape nz nx a → shape nz nx b → shape nz nx m →
  np_where m (np_where m a b) (np_where m b a) = a.
Proof.
  revert a b m. induction nz as [|nz IH]; intros a b m Ha Hb Hm.
  - by rewrite (shape_inv_0 _ _ Ha), (shape_inv_0 _ _ Hm).
  - apply shape_inv_S in Ha as (ra & a1 & -> & Hra & Ha).
    apply shape_inv_S in Hb as (rb & b1 & -> & Hrb & Hb).
    apply shape_inv_S in Hm as (mr & m1 & -> & Hmr & Hm).
    simpl. rewrite where_row_cross by congruence. f_equal. by apply IH.
Qed.

Lemma length_where_row (mr : list bool) (r1 r2 : list A) :
  length r1 = length mr → length r2 = length mr →
  length (where_row mr r1 r2) = length mr.
Proof.
  revert r1 r2. induction mr as [|b mr IH]; intros [|v1 r1] [|v2 r2] H1 H2;
    simplify_eq/=; try done.
  by rewrite IH.
Qed.

Lemma shape_np_where nz nx m a b :
  shape nz nx m → shape nz nx a → shape nz nx b → shape nz nx (np_where m a b).
Proof.
  revert a b m. induction nz as [|nz IH]; intros a b m Hm Ha Hb.
  - rewrite (shape_inv_0 _ _ Hm). apply shape_nil.
  - apply shape_inv_S in Ha as (ra & a1 & -> & Hra & Ha).
    apply shape_inv_S in Hb as (rb & b1 & -> & Hrb & Hb).
    apply shape_inv_S in Hm as (mr & m1 & -> & Hmr & Hm).
    simpl. apply shape_cons. split; [|by apply IH].
    rewrite length_where_row; congruence.
Qed.

Lemma length_put_masked (mr : list bool) (row vals : list A) :
  length (put_masked row mr vals).1 = length row.
Proof.
  revert mr vals. induction row as [|v row IH]; intros [|b mr] vals; try done.
  simpl. destruct b.
  - destruct vals as [|u vals]; [done|].
    specialize (IH mr vals). destruct (put_masked row mr vals). simpl in *. lia.
  - specialize (IH mr vals). destruct (put_masked row mr vals). simpl in *. lia.
Qed.

Lemma shape_mask_set nz nx g m vals :
  shape nz nx g → shape nz nx (mask_set g m vals).
Proof.
  revert g m vals. induction nz as [|nz IH]; intros g m vals Hg.
  - by rewrite (shape_inv_0 _ _ Hg).
  - apply shape_inv_S in Hg as (r & g1 & -> & Hr & Hg).
    destruct m as [|mr m]; [by apply shape_cons|]. simpl.
    pose proof (length_put_masked mr r vals) as Hl.
    destruct (put_masked r mr vals) as [r' rest]. simpl in Hl.
    apply shape_cons. split; [congruence|]. by apply IH.
Qed.
End MaskLemmas.

#[export] Hint Resolve shape_np_where shape_np_full shape_mask_set : shape.

(** ** Bounce-back *)

Lemma pops_shape_inv nz nx (f : pops) :
  pops_shape nz nx f →
  ∃ g0 g1 g2 g3 g4 g5 g6 g7 g8,
    f = [g0; g1; g2; g3; g4; g5; g6; g7; g8] ∧
    shape nz nx g0 ∧ shape nz nx g1 ∧ shape nz nx g2 ∧ shape nz nx g3 ∧
    shape nz nx g4 ∧ shape nz nx g5 ∧ shape nz nx g6 ∧ shape nz nx g7 ∧
    shape nz nx g8.
Proof.
  intros [Hlen Hall].
  do 9 (destruct f as [|? f]; [discriminate|]). destruct f; [|discriminate].
  repeat (apply Forall_cons in Hall as [? Hall]).
  eexists _, _, _, _, _, _, _, _, _. split_and!; done.
Qed.

Lemma fold_left_step {S I : Type} (F : S → I → S) i l s s' r :
  F s i = s' → fold_left F l s' = r → fold_left F (i :: l) s = r.
Proof. by intros <- <-. Qed.

Lemma bounce_back_id nz nx (solid : grid bool) (f : pops) :
  pops_shape nz nx f → shape nz nx solid → bounce_back solid f = f.
Proof.
  intros Hf Hm.
  destruct (pops_shape_inv _ _ _ Hf)
    as (g0 & g1 & g2 & g3 & g4 & g5 & g6 & g7 & g8 & -> & ? & ? & ? & ? & ? & ? & ? & ? & ?).
  unfold bounce_back, for_range. cbn [seq].
  do 9 (eapply fold_left_step;
    [ unfold bounce_back_body; simpl;
      repeat first
        [ rewrite (mask_set_get nz nx) by eauto with shape
        | rewrite (np_where_same nz nx) by eauto with shape
        | rewrite (np_where_cross nz nx) by eauto with shape ];
      reflexivity | ]).
  reflexivity.
Qed.

(** ** Reading a node *)

Section Lookup.
Context {A : Type} `{Inhabited A}.

Lemma at_glookup (g : grid A) z x v : glookup g z x = Some v → at_ g z x = v.
Proof.
  unfold glookup, at_. intros Hg.
  destruct (g !! z) as [row|] eqn:Hrow; [|done]. simpl in Hg.
  rewrite (list_lookup_total_correct _ _ _ Hrow).
  by apply list_lookup_total_correct.
Qed.

Lemma glookup_at nz nx (g : grid A) z x :
  shape nz nx g → (z < nz)%nat → (x < nx)%nat → glookup g z x = Some (at_ g z x).
Proof.
  intros Hs Hz Hx. destruct (glookup_is_Some _ _ _ _ _ Hs Hz Hx) as [v Hv].
  by rewrite (at_glookup _ _ _ _ Hv).
Qed.

End Lookup.

Section PointwiseLemmas.
Context {A B C : Type} `{Inhabited A, Inhabited B, Inhabited C}.

Lemma glookup_gzip (op : A → B → C) (a : grid A) (b : grid B) z x :
  glookup (gzip op a b) z x =
    u ← glookup a z x; v ← glookup b z x; Some (op u v).
Proof.
  unfold glookup, gzip. rewrite lookup_zip_with.
  destruct (a !! z) as [ra|]; [|done]. simpl.
  destruct (b !! z) as [rb|]; simpl.
  - by rewrite lookup_zip_with.
  - by destruct (ra !! x).
Qed.

Lemma glookup_gmap (op : A → B) (a : grid A) z x :
  glookup (gmap op a) z x = op <$> glookup a z x.
Proof.
  unfold glookup, gmap. rewrite list_lookup_fmap.
  destruct (a !! z) as [ra|]; [|done]. simpl. by rewrite list_lookup_fmap.
Qed.

Lemma at_gzip nz nx (op : A → B → C) (a : grid A) (b : grid B) z x :
  shape nz nx a → shape nz nx b → (z < nz)%nat → (x < nx)%nat →
  at_ (gzip op a b) z x = op (at_ a z x) (at_ b z x).
Proof.
  intros Ha Hb Hz Hx. apply at_glookup. rewrite glookup_gzip.
  by rewrite (glookup_at nz nx a), (glookup_at nz nx b).
Qed.

Lemma at_gmap nz nx (op : A → B) (a : grid A) z x :
  shape nz nx a → (z < nz)%nat → (x < nx)%nat →
  at_ (gmap op a) z x = op (at_ a z x).
Proof.
  intros Ha Hz Hx. apply at_glookup. rewrite glookup_gmap.
  by rewrite (glookup_at nz nx a).
Qed.

Lemma at_np_full nz nx (v : A) z x :
  (z < nz)%nat → (x < nx)%nat → at_ (np_full nz nx v) z x = v.
Proof.
  intros Hz Hx. apply at_glookup. unfold glookup, np_full.
  rewrite lookup_replicate_2 by done. simpl. by rewrite lookup_replicate_2.
Qed.

Lemma shape_gzip nz nx (op : A → B → C) (a : grid A) (b : grid B) :
  shape nz nx a → shape nz nx b → shape nz nx (gzip op a b).
Proof.
  intros [Hla Ha] [Hlb Hb]. split.
  - unfold gzip. rewrite length_zip_with. lia.
  - apply Forall_lookup_2. intros z row. unfold gzip. rewrite lookup_zip_with.
    intros Hrow. apply bind_Some in Hrow as (ra & Hra & Hrow).
    apply bind_Some in Hrow as (rb & Hrb & Hrow). simplify_eq.
    rewrite length_zip_with.
    rewrite (Forall_lookup_1 _ _ _ _ Ha Hra), (Forall_lookup_1 _ _ _ _ Hb Hrb). lia.
Qed.

Lemma shape_gmap nz nx (op : A → B) (a : grid A) :
  shape nz nx a → shape nz nx (gmap op a).
Proof.
  intros [Hla Ha]. split.
  - unfold gmap. by rewrite length_fmap.
  - unfold gmap. apply Forall_fmap. eapply Forall_impl; [done|].
    intros row Hrow. simpl. by rewrite length_fmap.
Qed.

(** Two arrays of one shape that agree at every node are equal. *)
Lemma grid_ext nz nx (a b : grid A) :
  shape nz nx a → shape nz nx b →
  (∀ z x, (z < nz)%nat → (x < nx)%nat → at_ a z x = at_ b z x) → a = b.
Proof.
  intros Ha Hb Hab. apply list_eq. intros z.
  destruct (decide (z < nz)%nat) as [Hz|Hz].
  - destruct (lookup_lt_is_Some_2 a z) as [ra Hra]; [destruct Ha; lia|].
    destruct (lookup_lt_is_Some_2 b z) as [rb Hrb]; [destruct Hb; lia|].
    rewrite Hra, Hrb. f_equal. apply list_eq. intros x.
    pose proof (shape_lookup _ _ _ _ _ Ha Hra) as Hlra.
    pose proof (shape_lookup _ _ _ _ _ Hb Hrb) as Hlrb.
    destruct (decide (x < nx)%nat) as [Hx|Hx].
    + specialize (Hab z x Hz Hx). unfold at_ in Hab.
      rewrite (list_lookup_total_correct _ _ _ Hra) in Hab.
      rewrite (list_lookup_total_correct _ _ _ Hrb) in Hab.
      rewrite !list_lookup_lookup_total_lt by lia. by f_equal.
    + rewrite !lookup_ge_None_2; [done|lia..].
  - destruct Ha, Hb. rewrite !lookup_ge_None_2; [done|lia..].
Qed.
End PointwiseLemmas.

Section NpRollLemmas.
Context {A : Type}.

Lemma length_np_roll (k : Z) (l : list A) : length (np_roll k l) = length l.
Proof. unfold np_roll. apply length_rotate. Qed.

Lemma lookup_np_roll (k : Z) (l : list A) (j : nat) :
  (j < length l)%nat →
  np_roll k l !! j = l !! wrap (length l) (Z.of_nat j - k).
Proof.
  intros Hj. unfold np_roll. rewrite lookup_rotate_r by done.
  f_equal. unfold rotate_nat_add, wrap.
  set (n := Z.of_nat (length l)). assert (0 < n)%Z by lia.
  rewrite Z2Nat.id by (apply Z.mod_pos_bound; lia).
  f_equal. rewrite Zplus_mod_idemp_l. f_equal. lia.
Qed.

Lemma wrap_lt (n : nat) (i : Z) : (0 < n)%nat → (wrap n i < n)%nat.
Proof.
  intros Hn. unfold wrap.
  pose proof (Z.mod_pos_bound i (Z.of_nat n)). lia.
Qed.

Lemma np_roll_replicate (k : Z) (n : nat) (v : A) :
  np_roll k (replicate n v) = replicate n v.
Proof. unfold np_roll. apply rotate_replicate. Qed.

End NpRollLemmas.

Section RollLemmas.
Context {A : Type} `{Inhabited A}.

Lemma shape_roll2 nz nx (sx sz : Z) (g : grid A) :
  shape nz nx g → shape nz nx (roll2 sx sz g).
Proof.
  intros [Hl Hall]. unfold roll2. split.
  - by rewrite length_np_roll, length_fmap.
  - apply Forall_forall. intros row Hrow.
    unfold np_roll at 1 in Hrow. apply elem_of_rotate in Hrow.
    apply list_elem_of_fmap in Hrow as (row0 & -> & Hrow0).
    rewrite length_np_roll. by apply (proj1 (Forall_forall _ _) Hall).
Qed.

Lemma at_roll2 nz nx (sx sz : Z) (g : grid A) z x :
  shape nz nx g → (z < nz)%nat → (x < nx)%nat →
  at_ (roll2 sx sz g) z x =
    at_ g (wrap nz (Z.of_nat z - sz)) (wrap nx (Z.of_nat x - sx)).
Proof.
  intros Hs Hz Hx. apply at_glookup.
  pose proof Hs as [Hl Hall].
  unfold glookup, roll2.
  rewrite lookup_np_roll by (rewrite length_fmap; lia).
  rewrite length_fmap, Hl, list_lookup_fmap.
  assert (Hz' : (wrap nz (Z.of_nat z - sz) < nz)%nat) by (apply wrap_lt; lia).
  assert (Hx' : (wrap nx (Z.of_nat x - sx) < nx)%nat) by (apply wrap_lt; lia).
  destruct (lookup_lt_is_Some_2 g (wrap nz (Z.of_nat z - sz))) as [row Hrow]; [lia|].
  rewrite Hrow. simpl.
  pose proof (shape_lookup _ _ _ _ _ Hs Hrow) as Hlrow.
  rewrite lookup_np_roll by lia. rewrite Hlrow.
  unfold at_. rewrite (list_lookup_total_correct _ _ _ Hrow).
  apply list_lookup_lookup_total_lt. lia.
Qed.

Lemma roll2_np_full nz nx (sx sz : Z) (v : A) :
  roll2 sx sz (np_full nz nx v) = np_full nz nx v.
Proof.
  unfold roll2, np_full. rewrite fmap_replicate, np_roll_replicate.
  by rewrite np_roll_replicate.
Qed.
End RollLemmas.

Section FillLemmas.
Context {A : Type} `{Inhabited A}.

Lemma shape_grid_fill nz nx (g : grid A) (v : A) :
  shape nz nx g → shape nz nx (grid_fill g v).
Proof. apply (shape_gmap nz nx (λ _, v)). Qed.

Lemma grid_fill_full nz nx (g : grid A) (v : A) :
  shape nz nx g → grid_fill g v = np_full nz nx v.
Proof.
  intros Hs. apply (grid_ext nz nx); [by apply shape_grid_fill|apply shape_np_full|].
  intros z x Hz Hx. rewrite at_np_full by done.
  by apply (at_gmap nz nx (λ _, v)).
Qed.

Lemma shape_mask_fill nz nx (g : grid A) (m : grid bool) (v : A) :
  shape nz nx g → shape nz nx m → shape nz nx (mask_fill g m v).
Proof. apply shape_gzip. Qed.

Lemma at_mask_fill nz nx (g : grid A) (m : grid bool) (v : A) z x :
  shape nz nx g → shape nz nx m → (z < nz)%nat → (x < nx)%nat →
  at_ (mask_fill g m v) z x = if at_ m z x then v else at_ g z x.
Proof.
  intros Hg Hm Hz Hx.
  exact (at_gzip nz nx (λ u (b : bool), if b then v else u) g m z x Hg Hm Hz Hx).
Qed.

Lemma shape_grid_set nz nx (g : grid A) (z x : nat) (v : A) :
  shape nz nx g → shape nz nx (grid_set g z x v).
Proof.
  intros [Hl Hall]. unfold grid_set. split.
  - by rewrite length_alter.
  - apply Forall_lookup_2. intros i row Hrow.
    destruct (decide (i = z)) as [->|Hne].
    + rewrite list_lookup_alter_eq in Hrow.
      destruct (g !! z) as [r|] eqn:Hr; simplify_eq/=.
      rewrite length_insert. by apply (Forall_lookup_1 _ _ _ _ Hall Hr).
    + rewrite list_lookup_alter_ne in Hrow by done.
      by apply (Forall_lookup_1 _ _ _ _ Hall Hrow).
Qed.

(** A write sets its own node and leaves the others as they were. *)
Lemma glookup_grid_set (g : grid A) (z x z' x' : nat) (v u : A) :
  glookup (grid_set g z x v) z' x' = Some u →
  glookup g z' x' = Some u ∨ (z' = z ∧ x' = x ∧ u = v).
Proof.
  unfold glookup, grid_set. intros Hu.
  destruct (decide (z' = z)) as [->|Hne].
  - rewrite list_lookup_alter_eq in Hu.
    destruct (g !! z) as [r|] eqn:Hr; simplify_eq/=.
    destruct (decide (x' = x)) as [->|Hnx].
    + apply list_lookup_insert_Some in Hu as [(_ & -> & _)|(? & _)]; [|done].
      by right.
    + rewrite list_lookup_insert_ne in Hu by done. by left.
  - rewrite list_lookup_alter_ne in Hu by done. by left.
Qed.
End FillLemmas.

#[export] Hint Resolve shape_gzip shape_gmap shape_roll2 shape_grid_fill
  shape_mask_fill shape_grid_set : shape.

(** ** Equilibrium, collision, streaming and recovery at a node *)

Lemma at_gzip3 {A B C D} `{Inhabited A, Inhabited B, Inhabited C, Inhabited D}
    nz nx (op : A → B → C → D) (a : grid A) (b : grid B) (c' : grid C) z x :
  shape nz nx a → shape nz nx b → shape nz nx c' → (z < nz)%nat → (x < nx)%nat →
  at_ (gzip3 op a b c') z x = op (at_ a z x) (at_ b z x) (at_ c' z x).
Proof.
  intros Ha Hb Hc Hz Hx. unfold gzip3.
  rewrite (at_gzip nz nx), (at_gzip nz nx) by eauto with shape. done.
Qed.

Lemma shape_gzip3 {A B C D} nz nx (op : A → B → C → D)
    (a : grid A) (b : grid B) (c' : grid C) :
  shape nz nx a → shape nz nx b → shape nz nx c' → shape nz nx (gzip3 op a b c').
Proof. intros. unfold gzip3. eauto with shape. Qed.

#[export] Hint Resolve shape_gzip3 : shape.

Lemma pops_shape_equilibrium nz nx rho ux uz :
  shape nz nx rho → shape nz nx ux → shape nz nx uz →
  pops_shape nz nx (equilibrium rho ux uz).
Proof.
  intros. split; [done|].
  unfold equilibrium, c, w. cbn [fmap list_fmap zip_with].
  repeat (apply Forall_cons_2; [eauto with shape|]). apply Forall_nil_2.
Qed.

Lemma node_equilibrium nz nx rho ux uz z x :
  shape nz nx rho → shape nz nx ux → shape nz nx uz →
  (z < nz)%nat → (x < nx)%nat →
  node (equilibrium rho ux uz) z x =
    zip_with (λ wi ci, feq_node wi ci (at_ rho z x) (at_ ux z x) (at_ uz z x)) w c.
Proof.
  intros Hr Hu Hv Hz Hx.
  unfold equilibrium, node, c, w. cbn [fmap list_fmap zip_with].
  rewrite !(at_gzip3 nz nx) by eauto with shape.
  rewrite !(at_gzip nz nx) by eauto with shape.
  reflexivity.
Qed.

Ltac dec_unfold := cbv [Q2R QArith_base.Qnum QArith_base.Qden] in *.

Lemma Rsum_cons (v : R) l : Rsum (v :: l) = v + Rsum l.
Proof. done. Qed.

(** The moments of the equilibrium at a node. *)
Lemma feq_node_mass r u v :
  Rsum (zip_with (λ wi ci, feq_node wi ci r u v) w c) = r.
Proof.
  unfold w, c, feq_node, Rsum. cbn [zip_with foldr fst snd]. dec_unfold. field.
Qed.

Lemma feq_node_mom_x r u v :
  Rsum (zip_with (λ ci fv, IZR ci.1 * fv) c
          (zip_with (λ wi ci, feq_node wi ci r u v) w c)) = r * u.
Proof.
  unfold w, c, feq_node, Rsum. cbn [zip_with foldr fst snd]. dec_unfold. field.
Qed.

Lemma feq_node_mom_z r u v :
  Rsum (zip_with (λ ci fv, IZR ci.2 * fv) c
          (zip_with (λ wi ci, feq_node wi ci r u v) w c)) = r * v.
Proof.
  unfold w, c, feq_node, Rsum. cbn [zip_with foldr fst snd]. dec_unfold. field.
Qed.

Lemma equilibrium_rest nz nx :
  equilibrium (np_full nz nx 1) (np_full nz nx 0) (np_full nz nx 0) =
    np_full nz nx <$> w.
Proof.
  unfold equilibrium, c, w. cbn [fmap list_fmap zip_with].
  repeat f_equal;
    (apply (grid_ext nz nx); [eauto with shape..|];
     intros z x Hz Hx;
     rewrite (at_gzip3 nz nx), !(at_gzip nz nx), !at_np_full by eauto with shape;
     cbn [fst snd]; dec_unfold; field).
Qed.

Lemma pops_shape_collide cfg nz nx f rho ux uz :
  pops_shape nz nx f → shape nz nx rho → shape nz nx ux → shape nz nx uz →
  pops_shape nz nx (collide cfg f rho ux uz).
Proof.
  intros Hf Hr Hu Hv.
  destruct (pops_shape_inv _ _ _ Hf)
    as (g0 & g1 & g2 & g3 & g4 & g5 & g6 & g7 & g8 & -> & ? & ? & ? & ? & ? & ? & ? & ? & ?).
  split; [done|].
  unfold collide, equilibrium, c, w. cbn [fmap list_fmap zip_with].
  repeat (apply Forall_cons_2; [eauto with shape|]). apply Forall_nil_2.
Qed.

Lemma node_collide cfg nz nx f rho ux uz z x :
  pops_shape nz nx f → shape nz nx rho → shape nz nx ux → shape nz nx uz →
  (z < nz)%nat → (x < nx)%nat →
  node (collide cfg f rho ux uz) z x =
    zip_with (λ fv fe, (1.0 - omega cfg) * fv + omega cfg * fe)
      (node f z x)
      (zip_with (λ wi ci, feq_node wi ci (at_ rho z x) (at_ ux z x) (at_ uz z x)) w c).
Proof.
  intros Hf Hr Hu Hv Hz Hx.
  rewrite <-(node_equilibrium nz nx) by done.
  destruct (pops_shape_inv _ _ _ Hf)
    as (g0 & g1 & g2 & g3 & g4 & g5 & g6 & g7 & g8 & -> & ? & ? & ? & ? & ? & ? & ? & ? & ?).
  unfold collide, equilibrium, node, c, w. cbn [fmap list_fmap zip_with].
  rewrite !(at_gzip nz nx _ _ (gzip3 _ _ _ _)) by eauto with shape.
  reflexivity.
Qed.

Lemma pops_shape_stream nz nx f :
  pops_shape nz nx f → pops_shape nz nx (stream f).
Proof.
  intros Hf.
  destruct (pops_shape_inv _ _ _ Hf)
    as (g0 & g1 & g2 & g3 & g4 & g5 & g6 & g7 & g8 & -> & ? & ? & ? & ? & ? & ? & ? & ? & ?).
  split; [done|].
  unfold stream, c. cbn [fmap list_fmap zip_with].
  repeat (apply Forall_cons_2; [eauto with shape|]). apply Forall_nil_2.
Qed.

Lemma node_stream nz nx f z x :
  pops_shape nz nx f → (z < nz)%nat → (x < nx)%nat →
  node (stream f) z x =
    zip_with (λ (ci : Z * Z) g,
        at_ g (wrap nz (Z.of_nat z - ci.2)) (wrap nx (Z.of_nat x - ci.1))) c f.
Proof.
  intros Hf Hz Hx.
  destruct (pops_shape_inv _ _ _ Hf)
    as (g0 & g1 & g2 & g3 & g4 & g5 & g6 & g7 & g8 & -> & ? & ? & ? & ? & ? & ? & ? & ? & ?).
  unfold stream, node, c. cbn [fmap list_fmap zip_with].
  rewrite !(at_roll2 nz nx) by eauto with shape.
  reflexivity.
Qed.

Lemma shape_recover_rho nz nx f rho :
  pops_shape nz nx f → shape nz nx rho → shape nz nx (recover_rho f rho).
Proof.
  intros Hf Hr.
  destruct (pops_shape_inv _ _ _ Hf)
    as (g0 & g1 & g2 & g3 & g4 & g5 & g6 & g7 & g8 & -> & ? & ? & ? & ? & ? & ? & ? & ? & ?).
  unfold recover_rho. cbn [fold_left]. eauto 20 with shape.
Qed.

Lemma at_recover_rho nz nx f rho z x :
  pops_shape nz nx f → shape nz nx rho → (z < nz)%nat → (x < nx)%nat →
  at_ (recover_rho f rho) z x = node_mass f z x.
Proof.
  intros Hf Hr Hz Hx.
  destruct (pops_shape_inv _ _ _ Hf)
    as (g0 & g1 & g2 & g3 & g4 & g5 & g6 & g7 & g8 & -> & ? & ? & ? & ? & ? & ? & ? & ? & ?).
  unfold recover_rho, node_mass, node, Rsum. cbn [fold_left fmap list_fmap foldr].
  rewrite !(at_gzip nz nx) by eauto 20 with shape.
  rewrite (grid_fill_full nz nx), at_np_full by done. dec_unfold. field.
Qed.

Lemma shape_momentum nz nx comp f u :
  pops_shape nz nx f → shape nz nx u → shape nz nx (momentum comp f u).
Proof.
  intros Hf Hr.
  destruct (pops_shape_inv _ _ _ Hf)
    as (g0 & g1 & g2 & g3 & g4 & g5 & g6 & g7 & g8 & -> & ? & ? & ? & ? & ? & ? & ? & ? & ?).
  unfold momentum, c. cbn [fold_left zip zip_with]. eauto 30 with shape.
Qed.

Lemma at_momentum nz nx comp f u z x :
  pops_shape nz nx f → shape nz nx u → (z < nz)%nat → (x < nx)%nat →
  at_ (momentum comp f u) z x = node_mom comp f z x.
Proof.
  intros Hf Hr Hz Hx.
  destruct (pops_shape_inv _ _ _ Hf)
    as (g0 & g1 & g2 & g3 & g4 & g5 & g6 & g7 & g8 & -> & ? & ? & ? & ? & ? & ? & ? & ? & ?).
  unfold momentum, node_mom, node, Rsum, c.
  cbn [fold_left zip zip_with fmap list_fmap foldr fst snd].
  rewrite !(at_gzip nz nx) by eauto 30 with shape.
  rewrite !(at_gmap nz nx) by eauto with shape.
  rewrite (grid_fill_full nz nx), at_np_full by done. dec_unfold. field.
Qed.

(** ** Fin geometry *)

Lemma length_z_center cfg t : length (z_center cfg t) = length (xs_local cfg).
Proof. unfold z_center. by rewrite !length_fmap. Qed.

Lemma dzdx_of_ok (zc : list R) :
  (2 ≤ length zc)%nat → ∃ dz, dzdx_of zc = Ok dz ∧ length dz = length zc.
Proof.
  intros Hn. unfold dzdx_of.
  destruct (lookup_lt_is_Some_2 zc 1) as [z1 ->]; [lia|].
  destruct (lookup_lt_is_Some_2 zc 0) as [z0 ->]; [lia|].
  destruct (lookup_lt_is_Some_2 zc (length zc - 1)) as [zl ->]; [lia|].
  destruct (lookup_lt_is_Some_2 zc (length zc - 2)) as [zl' ->]; [lia|].
  eexists. split; [done|].
  rewrite !length_insert, !length_app, length_take, length_zip_with, !length_drop,
    length_take, length_replicate. lia.
Qed.

Lemma dzdx_of_short (zc : list R) :
  (length zc < 2)%nat → dzdx_of zc = Raise IndexError.
Proof.
  intros Hn. unfold dzdx_of.
  by rewrite (lookup_ge_None_2 zc 1) by lia.
Qed.

Lemma shape_mark_sample cfg x_c z_c n_hat m s :
  shape (nz cfg) (nx cfg) m → shape (nz cfg) (nx cfg) (mark_sample cfg x_c z_c n_hat m s).
Proof. intros Hm. unfold mark_sample. case_match; eauto with shape. Qed.

Lemma fold_left_invariant {S I : Type} (P : S → Prop) (F : S → I → S) l s :
  (∀ s i, P s → P (F s i)) → P s → P (fold_left F l s).
Proof. intros HF. revert s. induction l as [|i l IH]; simpl; eauto. Qed.

Lemma shape_mark_column cfg m col :
  shape (nz cfg) (nx cfg) m → shape (nz cfg) (nx cfg) (mark_column cfg m col).
Proof.
  intros Hm. destruct col as [[x_c z_c] d]. unfold mark_column.
  apply fold_left_invariant; [|done]. intros. by apply shape_mark_sample.
Qed.

Lemma rasterize_ok cfg zc :
  (2 ≤ length zc)%nat → lambda_fin cfg ≠ 0 →
  ∃ m, rasterize cfg zc = Ok m ∧ shape (nz cfg) (nx cfg) m.
Proof.
  intros Hn Hl. unfold rasterize.
  destruct (dzdx_of_ok zc Hn) as (dz & -> & _). simpl.
  destruct (Req_dec_T (lambda_fin cfg) 0) as [?|_]; [done|].
  eexists. split; [done|].
  apply fold_left_invariant; [|apply shape_np_full].
  intros. by apply shape_mark_column.
Qed.

(** The two ways the generator fails. *)
Lemma update_fin_mask_short cfg t :
  (length (xs_local cfg) < 2)%nat → update_fin_mask cfg t = Raise IndexError.
Proof.
  intros Hn. unfold update_fin_mask, rasterize.
  rewrite dzdx_of_short; [done|]. by rewrite length_z_center.
Qed.

Lemma update_fin_mask_nan cfg t :
  (2 ≤ length (xs_local cfg))%nat → lambda_fin cfg = 0 →
  update_fin_mask cfg t = Raise ValueError.
Proof.
  intros Hn Hl. unfold update_fin_mask, rasterize.
  destruct (dzdx_of_ok (z_center cfg t)) as (dz & -> & _);
    [by rewrite length_z_center|].
  simpl. by destruct (Req_dec_T (lambda_fin cfg) 0).
Qed.

Lemma update_fin_mask_ok cfg t :
  wf_geometry cfg →
  ∃ m, update_fin_mask cfg t = Ok m ∧ shape (nz cfg) (nx cfg) m.
Proof.
  intros [Hn Hl]. apply rasterize_ok; [|done]. by rewrite length_z_center.
Qed.

Lemma interior_only_full cfg : interior_only cfg (np_full (nz cfg) (nx cfg) false).
Proof.
  intros iz ix. unfold glookup, np_full. intros Hm.
  apply bind_Some in Hm as (row & Hrow & Hm).
  apply lookup_replicate in Hrow as [-> _].
  apply lookup_replicate in Hm as [? _]. discriminate.
Qed.

Lemma interior_only_mark_sample cfg x_c z_c n_hat m s :
  interior_only cfg m → interior_only cfg (mark_sample cfg x_c z_c n_hat m s).
Proof.
  intros Hm. unfold mark_sample.
  destruct (in_interior cfg _ _) eqn:Hin; [|done].
  intros iz ix Hset. apply glookup_grid_set in Hset as [?|(-> & -> & _)]; [by apply Hm|].
  unfold in_interior in Hin.
  repeat (apply andb_prop in Hin as [Hin ?]).
  lia.
Qed.

Lemma interior_only_rasterize cfg zc m :
  rasterize cfg zc = Ok m → interior_only cfg m.
Proof.
  unfold rasterize. destruct (dzdx_of zc) as [dz|e]; simpl; [|done].
  destruct (Req_dec_T (lambda_fin cfg) 0); [done|].
  intros [= <-].
  apply fold_left_invariant; [|apply interior_only_full].
  intros m [[x_c z_c] d] Hm. unfold mark_column.
  apply fold_left_invariant; [|done].
  intros. by apply interior_only_mark_sample.
Qed.

(** With the script's parameters the centerline starts at
    [z_root + H_fin / 2] at time 0. *)
Lemma centerline_at_root : z_center default_config 0 !! 0%nat = Some 17.
Proof.
  unfold z_center. rewrite !list_lookup_fmap.
  change (xs_local default_config !! 0%nat) with (Some 30%Z).
  cbn [fmap option_fmap option_map]. f_equal.
  cbn [z_root H_fin A_fin x_start lambda_fin f_wave default_config].
  replace (2.0 * PI * ((30 - 30) / (280 / 1.5) - 0.001 * 0)) with 0
    by (dec_unfold; field).
  rewrite sin_0. dec_unfold. field.
Qed.

(** The centerline is periodic in time. *)
Lemma z_center_period cfg t :
  f_wave cfg ≠ 0 → z_center cfg (t + 1 / f_wave cfg) = z_center cfg t.
Proof.
  intros Hf. unfold z_center. rewrite <-!list_fmap_compose.
  apply list_fmap_ext. intros _ x _. simpl. do 2 f_equal.
  rewrite <-(sin_period _ 1).
  f_equal. simpl INR.
  replace (f_wave cfg * (t + 1 / f_wave cfg)) with (f_wave cfg * t + 1)
    by (field; done).
  dec_unfold. unfold Rdiv. generalize (/ lambda_fin cfg). intros q. field.
Qed.

(** The tangent [(1, dzdx)] has norm at least one. *)
Lemma np_hypot_1_ge d : 1 <= np_hypot 1.0 d.
Proof.
  unfold np_hypot. rewrite <-sqrt_1 at 1. apply sqrt_le_1_alt.
  dec_unfold. nra.
Qed.

Lemma tangent_never_degenerate d : tangent_degenerate d = false.
Proof.
  unfold tangent_degenerate. pose proof (np_hypot_1_ge d).
  destruct (Req_dec_T _ _) as [Heq|]; [lra|done].
Qed.

(** ** Static walls *)

Lemma shape_insert_row {A} nz nx (g : grid A) (k : nat) (row : list A) :
  shape nz nx g → length row = nx → shape nz nx (<[k := row]> g).
Proof.
  intros [Hl Hall] Hrow. split; [by rewrite length_insert|].
  apply Forall_insert; done.
Qed.

Lemma at_insert_row {A} `{Inhabited A} nz nx (g : grid A) (k : nat) (v : A) z x :
  shape nz nx g → (k < nz)%nat → (z < nz)%nat → (x < nx)%nat →
  at_ (<[k := replicate nx v]> g) z x = if decide (z = k) then v else at_ g z x.
Proof.
  intros [Hl Hall] Hk Hz Hx. unfold at_. case_decide as Hzk.
  - subst z. rewrite list_lookup_total_insert_eq by lia.
    apply list_lookup_total_correct. by apply lookup_replicate_2.
  - by rewrite list_lookup_total_insert_ne.
Qed.

Lemma shape_solid_static cfg : shape (nz cfg) (nx cfg) (solid_static cfg).
Proof.
  unfold solid_static.
  repeat apply shape_insert_row; auto using shape_np_full, length_replicate.
Qed.

(** The rows [0] and [nz - 1] are walls. *)
Lemma at_solid_static cfg z x :
  (z < nz cfg)%nat → (x < nx cfg)%nat →
  at_ (solid_static cfg) z x = bool_decide (z = 0%nat ∨ z = (nz cfg - 1)%nat).
Proof.
  intros Hz Hx. unfold solid_static.
  rewrite (at_insert_row (nz cfg) (nx cfg)); [|apply shape_insert_row; auto using shape_np_full, length_replicate|lia..].
  rewrite (at_insert_row (nz cfg) (nx cfg)); [|auto using shape_np_full|lia..].
  rewrite at_np_full by done.
  repeat case_decide; case_bool_decide; simpl; lia.
Qed.

#[export] Hint Resolve shape_solid_static shape_recover_rho shape_momentum : shape.

(** ** The whole step *)

(** The state after one step, when the geometry raises nothing. *)
Lemma collide_and_stream_ok cfg f rho ux uz t :
  wf_config cfg → pops_shape (nz cfg) (nx cfg) f →
  shape (nz cfg) (nx cfg) rho → shape (nz cfg) (nx cfg) ux → shape (nz cfg) (nx cfg) uz →
  ∃ fin_mask,
    update_fin_mask cfg t = Ok fin_mask ∧ shape (nz cfg) (nx cfg) fin_mask ∧
    let solid := gzip orb (solid_static cfg) fin_mask in
    let f' := stream (collide cfg f rho ux uz) in
    let rho' := recover_rho f' rho in
    shape (nz cfg) (nx cfg) solid ∧ pops_shape (nz cfg) (nx cfg) f' ∧
    collide_and_stream cfg f rho ux uz t =
      Ok (f', rho',
          mask_fill (gzip Rdiv (momentum fst f' ux) rho') solid 0.0,
          mask_fill (gzip Rdiv (momentum snd f' uz) rho') solid 0.0,
          solid).
Proof.
  intros (Hn & Hl & _) Hf Hr Hu Hv.
  destruct (update_fin_mask_ok cfg t) as (m & Hm & Hsm); [done|].
  exists m. split_and!; [done..|]. cbn zeta.
  assert (Hsolid : shape (nz cfg) (nx cfg) (gzip orb (solid_static cfg) m))
    by eauto with shape.
  assert (Hf' : pops_shape (nz cfg) (nx cfg) (stream (collide cfg f rho ux uz)))
    by auto using pops_shape_stream, pops_shape_collide.
  split_and!; [done..|].
  unfold collide_and_stream. rewrite Hm.
  unfold mbind, result_bind, recover. cbv beta iota zeta.
  rewrite (bounce_back_id (nz cfg) (nx cfg)) by done.
  reflexivity.
Qed.

(** ** Uniform fields *)

Lemma gzip_np_full {A B C} nz nx (op : A → B → C) (a : A) (b : B) :
  gzip op (np_full nz nx a) (np_full nz nx b) = np_full nz nx (op a b).
Proof. unfold gzip, np_full. by rewrite !zip_with_replicate. Qed.

Lemma gmap_np_full {A B} nz nx (op : A → B) (a : A) :
  gmap op (np_full nz nx a) = np_full nz nx (op a).
Proof. unfold gmap, np_full. by rewrite !fmap_replicate. Qed.

Lemma gzip3_np_full {A B C D} nz nx (op : A → B → C → D) a b c' :
  gzip3 op (np_full nz nx a) (np_full nz nx b) (np_full nz nx c') =
    np_full nz nx (op a b c').
Proof. unfold gzip3. by rewrite !gzip_np_full. Qed.

Lemma mask_fill_np_full nz nx (m : grid bool) (v : R) :
  shape nz nx m → mask_fill (np_full nz nx v) m v = np_full nz nx v.
Proof.
  intros Hm. apply (grid_ext nz nx); [eauto with shape..|].
  intros z x Hz Hx. rewrite (at_mask_fill nz nx), at_np_full by eauto with shape.
  by destruct (at_ m z x).
Qed.

Lemma np_full_eq {A} nz nx (a b : A) : a = b → np_full nz nx a = np_full nz nx b.
Proof. by intros ->. Qed.

Lemma stream_uniform nz nx v0 v1 v2 v3 v4 v5 v6 v7 v8 :
  stream (uniform_pops nz nx [v0; v1; v2; v3; v4; v5; v6; v7; v8]) =
    uniform_pops nz nx [v0; v1; v2; v3; v4; v5; v6; v7; v8].
Proof.
  unfold stream, uniform_pops, c. cbn [fmap list_fmap zip_with].
  by rewrite !roll2_np_full.
Qed.

Lemma collide_uniform cfg nz nx v0 v1 v2 v3 v4 v5 v6 v7 v8 r u v :
  collide cfg (uniform_pops nz nx [v0; v1; v2; v3; v4; v5; v6; v7; v8])
      (np_full nz nx r) (np_full nz nx u) (np_full nz nx v) =
    uniform_pops nz nx
      (zip_with (λ fv fe, (1.0 - omega cfg) * fv + omega cfg * fe)
         [v0; v1; v2; v3; v4; v5; v6; v7; v8]
         (zip_with (λ wi ci, feq_node wi ci r u v) w c)).
Proof.
  unfold collide, equilibrium, uniform_pops, c, w. cbn [fmap list_fmap zip_with].
  rewrite !gzip_np_full, !gzip3_np_full, !gzip_np_full. reflexivity.
Qed.

Lemma recover_rho_uniform nz nx v0 v1 v2 v3 v4 v5 v6 v7 v8 rho :
  shape nz nx rho →
  recover_rho (uniform_pops nz nx [v0; v1; v2; v3; v4; v5; v6; v7; v8]) rho =
    np_full nz nx (Rsum [v0; v1; v2; v3; v4; v5; v6; v7; v8]).
Proof.
  intros Hr. unfold recover_rho, uniform_pops. cbn [fmap list_fmap fold_left].
  rewrite (grid_fill_full nz nx) by done. rewrite !gzip_np_full.
  apply np_full_eq. unfold Rsum. simpl. lra.
Qed.

Lemma momentum_uniform nz nx comp v0 v1 v2 v3 v4 v5 v6 v7 v8 u :
  shape nz nx u →
  momentum comp (uniform_pops nz nx [v0; v1; v2; v3; v4; v5; v6; v7; v8]) u =
    np_full nz nx
      (Rsum (zip_with (λ ci fv, IZR (comp ci) * fv) c [v0; v1; v2; v3; v4; v5; v6; v7; v8])).
Proof.
  intros Hr. unfold momentum, uniform_pops, c.
  cbn [fmap list_fmap fold_left zip zip_with fst snd].
  rewrite (grid_fill_full nz nx) by done. rewrite !gmap_np_full, !gzip_np_full.
  apply np_full_eq. unfold Rsum. cbn [zip_with foldr fst snd]. dec_unfold. lra.
Qed.

Lemma pops_shape_uniform nz nx v0 v1 v2 v3 v4 v5 v6 v7 v8 :
  pops_shape nz nx (uniform_pops nz nx [v0; v1; v2; v3; v4; v5; v6; v7; v8]).
Proof.
  split; [done|]. unfold uniform_pops. cbn [fmap list_fmap].
  repeat (apply Forall_cons_2; [eauto with shape|]). apply Forall_nil_2.
Qed.

(** The wall row [0] is solid whatever the fin does. *)
Lemma at_solid_row0 cfg (m : grid bool) x :
  shape (nz cfg) (nx cfg) m → (1 ≤ nz cfg)%nat → (x < nx cfg)%nat →
  at_ (gzip orb (solid_static cfg) m) 0 x = true.
Proof.
  intros Hm Hz Hx.
  rewrite (at_gzip (nz cfg) (nx cfg)) by (eauto with shape || lia).
  rewrite at_solid_static by lia. by rewrite bool_decide_true by auto.
Qed.

Lemma collide_and_stream_uniform cfg v0 v1 v2 v3 v4 v5 v6 v7 v8 r u v t :
  wf_config cfg →
  let vs' :=
    zip_with (λ fv fe, (1.0 - omega cfg) * fv + omega cfg * fe)
      [v0; v1; v2; v3; v4; v5; v6; v7; v8]
      (zip_with (λ wi ci, feq_node wi ci r u v) w c) in
  ∃ solid,
    shape (nz cfg) (nx cfg) solid ∧
    (∀ x, (x < nx cfg)%nat → at_ solid 0 x = true) ∧
    collide_and_stream cfg
        (uniform_pops (nz cfg) (nx cfg) [v0; v1; v2; v3; v4; v5; v6; v7; v8])
        (np_full (nz cfg) (nx cfg) r) (np_full (nz cfg) (nx cfg) u)
        (np_full (nz cfg) (nx cfg) v) t =
      Ok (uniform_pops (nz cfg) (nx cfg) vs',
          np_full (nz cfg) (nx cfg) (Rsum vs'),
          mask_fill (np_full (nz cfg) (nx cfg)
                       (Rsum (zip_with (λ ci fv, IZR ci.1 * fv) c vs') / Rsum vs'))
                    solid 0.0,
          mask_fill (np_full (nz cfg) (nx cfg)
                       (Rsum (zip_with (λ ci fv, IZR ci.2 * fv) c vs') / Rsum vs'))
                    solid 0.0,
          solid).
Proof.
  intros Hwf vs'.
  destruct (collide_and_stream_ok cfg
              (uniform_pops (nz cfg) (nx cfg) [v0; v1; v2; v3; v4; v5; v6; v7; v8])
              (np_full (nz cfg) (nx cfg) r) (np_full (nz cfg) (nx cfg) u)
              (np_full (nz cfg) (nx cfg) v) t)
    as (m & Hm & Hsm & Hsolid & _ & Hstep);
    [done|apply pops_shape_uniform|apply shape_np_full..|].
  exists (gzip orb (solid_static cfg) m). split; [done|]. split.
  { intros x Hx. apply at_solid_row0; [done| |done]. by destruct Hwf as (_ & _ & ?). }
  rewrite Hstep. rewrite collide_uniform. fold vs'.
  unfold vs'. cbn [zip_with c w]. unfold w, c. cbn [zip_with].
  rewrite stream_uniform.
  rewrite recover_rho_uniform, !momentum_uniform by apply shape_np_full.
  rewrite !gzip_np_full. reflexivity.
Qed.

(** ** The script's parameters and initial state *)

Lemma f_init_uniform cfg : f_init cfg = uniform_pops (nz cfg) (nx cfg) w.
Proof. apply equilibrium_rest. Qed.

Lemma wf_config_default : wf_config default_config.
Proof.
  split_and!.
  - vm_compute. lia.
  - simpl. dec_unfold. lra.
  - simpl. lia.
Qed.

(** Closes a goal [Ok (f, rho, ux, uz, solid) = Ok (f', rho', ux', uz', solid)]
    between uniform fields whose values are equal real numbers. *)
Ltac uniform_fields :=
  repeat match goal with
  | |- Ok _ = Ok _ => f_equal
  | |- (_, _) = (_, _) => f_equal
  | |- uniform_pops _ _ _ = uniform_pops _ _ _ => f_equal
  | |- _ :: _ = _ :: _ => f_equal
  | |- mask_fill _ _ _ = mask_fill _ _ _ => f_equal
  | |- np_full _ _ _ = np_full _ _ _ => apply np_full_eq
  end;
  try (unfold Rsum, feq_node; cbn [zip_with foldr fst snd]; dec_unfold;
       solve [field; lra | lra]).

(** ** Sums over the lattice *)

Lemma Rsum_app l1 l2 : Rsum (l1 ++ l2) = Rsum l1 + Rsum l2.
Proof. induction l1 as [|v l1 IH]; simpl; [lra|]. rewrite IH. lra. Qed.

Lemma Rsum_rotate n l : Rsum (rotate n l) = Rsum l.
Proof.
  unfold rotate. rewrite Rsum_app.
  rewrite <-(take_drop (n `mod` length l) l) at 5. rewrite Rsum_app. lra.
Qed.

Lemma Rsum_np_roll k l : Rsum (np_roll k l) = Rsum l.
Proof. apply Rsum_rotate. Qed.

Lemma Rsum_zip_with_plus (l1 l2 : list R) :
  length l1 = length l2 → Rsum (zip_with Rplus l1 l2) = Rsum l1 + Rsum l2.
Proof.
  revert l2. induction l1 as [|a l1 IH]; intros [|b l2] Hl; simplify_eq/=; [lra|].
  rewrite IH by done. lra.
Qed.

Lemma Rsum_zip_with_lin (k1 k2 : R) (l1 l2 : list R) :
  length l1 = length l2 →
  Rsum (zip_with (λ a b, k1 * a + k2 * b) l1 l2) = k1 * Rsum l1 + k2 * Rsum l2.
Proof.
  revert l2. induction l1 as [|a l1 IH]; intros [|b l2] Hl; simplify_eq/=; [lra|].
  rewrite IH by done. lra.
Qed.

Lemma Rsum_replicate_0 n : Rsum (replicate n 0) = 0.
Proof. induction n as [|n IH]; simpl; [done|]. rewrite IH. lra. Qed.

Lemma fmap_rotate {A B} (g : A → B) n (l : list A) :
  g <$> rotate n l = rotate n (g <$> l).
Proof.
  unfold rotate. by rewrite fmap_app, fmap_drop, fmap_take, length_fmap.
Qed.

(** Rolling permutes the entries of an array. *)
Lemma grid_sum_roll2 sx sz (g : grid R) : grid_sum (roll2 sx sz g) = grid_sum g.
Proof.
  unfold grid_sum, roll2, np_roll at 1. rewrite fmap_rotate, Rsum_rotate.
  rewrite <-list_fmap_compose. f_equal. apply list_fmap_ext.
  intros _ row _. apply Rsum_np_roll.
Qed.

Lemma grid_sum_gzip_plus nz nx (a b : grid R) :
  shape nz nx a → shape nz nx b →
  grid_sum (gzip Rplus a b) = grid_sum a + grid_sum b.
Proof.
  revert a b. induction nz as [|nz IH]; intros a b Ha Hb.
  - rewrite (shape_inv_0 _ _ Ha), (shape_inv_0 _ _ Hb). unfold grid_sum. simpl. lra.
  - apply shape_inv_S in Ha as (ra & a1 & -> & Hra & Ha).
    apply shape_inv_S in Hb as (rb & b1 & -> & Hrb & Hb).
    unfold grid_sum in *. cbn [gzip zip_with fmap list_fmap]. rewrite !Rsum_cons.
    rewrite Rsum_zip_with_plus by congruence.
    unfold gzip in IH. rewrite (IH a1 b1) by done. lra.
Qed.

Lemma grid_sum_np_full_0 nz nx : grid_sum (np_full nz nx 0) = 0.
Proof.
  unfold grid_sum, np_full. rewrite fmap_replicate, Rsum_replicate_0.
  apply Rsum_replicate_0.
Qed.

Lemma total_mass_stream nz nx f :
  pops_shape nz nx f → total_mass (stream f) = total_mass f.
Proof.
  intros Hf.
  destruct (pops_shape_inv _ _ _ Hf)
    as (g0 & g1 & g2 & g3 & g4 & g5 & g6 & g7 & g8 & -> & _).
  unfold total_mass, stream, c. cbn [zip_with fmap list_fmap].
  by rewrite !grid_sum_roll2.
Qed.

(** The mass on the lattice is the sum of the density field. *)
Lemma grid_sum_recover_rho nz nx f rho :
  pops_shape nz nx f → shape nz nx rho →
  grid_sum (recover_rho f rho) = total_mass f.
Proof.
  intros Hf Hr.
  destruct (pops_shape_inv _ _ _ Hf)
    as (g0 & g1 & g2 & g3 & g4 & g5 & g6 & g7 & g8 & -> & ? & ? & ? & ? & ? & ? & ? & ? & ?).
  unfold recover_rho, total_mass, Rsum. cbn [fold_left fmap list_fmap foldr].
  rewrite !(grid_sum_gzip_plus nz nx) by eauto 20 with shape.
  rewrite (grid_fill_full nz nx), grid_sum_np_full_0 by done. lra.
Qed.

(** Collision keeps the mass of a node whose density is the sum of its
    populations. *)
Lemma node_mass_collide cfg nz nx f rho ux uz z x :
  pops_shape nz nx f → shape nz nx rho → shape nz nx ux → shape nz nx uz →
  (z < nz)%nat → (x < nx)%nat →
  at_ rho z x = node_mass f z x →
  node_mass (collide cfg f rho ux uz) z x = node_mass f z x.
Proof.
  intros Hf Hr Hu Hv Hz Hx Hrho.
  unfold node_mass in *. rewrite (node_collide cfg nz nx) by done.
  rewrite Rsum_zip_with_lin.
  - rewrite feq_node_mass, Hrho. dec_unfold. field.
  - unfold node. rewrite length_fmap. by destruct Hf as [-> _].
Qed.

Lemma total_mass_collide cfg nz nx f rho ux uz :
  pops_shape nz nx f → shape nz nx rho → shape nz nx ux → shape nz nx uz →
  (∀ z x, (z < nz)%nat → (x < nx)%nat → at_ rho z x = node_mass f z x) →
  total_mass (collide cfg f rho ux uz) = total_mass f.
Proof.
  intros Hf Hr Hu Hv Hrho.
  rewrite <-(grid_sum_recover_rho nz nx _ rho) by auto using pops_shape_collide.
  rewrite <-(grid_sum_recover_rho nz nx f rho) by done.
  f_equal. apply (grid_ext nz nx); [auto using shape_recover_rho, pops_shape_collide..|].
  intros z x Hz Hx.
  rewrite !(at_recover_rho nz nx) by auto using pops_shape_collide.
  apply (node_mass_collide cfg nz nx); auto.
Qed.

Lemma node_stream_collide cfg nz nx f rho ux uz z x :
  pops_shape nz nx f → shape nz nx rho → shape nz nx ux → shape nz nx uz →
  (z < nz)%nat → (x < nx)%nat →
  node (stream (collide cfg f rho ux uz)) z x =
    (λ i, let '(z', x') := upstream nz nx i z x in collided cfg f rho ux uz i z' x')
      <$> seq 0 9.
Proof.
  intros Hf Hr Hu Hv Hz Hx.
  rewrite (node_stream nz nx) by auto using pops_shape_collide.
  destruct (pops_shape_inv _ _ _ Hf)
    as (g0 & g1 & g2 & g3 & g4 & g5 & g6 & g7 & g8 & -> & ? & ? & ? & ? & ? & ? & ? & ? & ?).
  assert (Hwz : ∀ k, (wrap nz k < nz)%nat) by (intros; apply wrap_lt; lia).
  assert (Hwx : ∀ k, (wrap nx k < nx)%nat) by (intros; apply wrap_lt; lia).
  unfold collide, equilibrium, upstream, collided, c, w.
  cbn [zip_with fmap list_fmap seq fst snd lookup_total list_lookup_total].
  rewrite !(at_gzip nz nx _ _ (gzip3 _ _ _ _)) by eauto with shape.
  rewrite !(at_gzip3 nz nx) by eauto with shape.
  rewrite !(at_gzip nz nx) by eauto with shape.
  reflexivity.
Qed.

(** ** A density bump *)

Lemma shape_rho_bump cfg : shape (nz cfg) (nx cfg) (rho_bump cfg).
Proof. apply shape_insert_row; auto using shape_np_full, length_replicate. Qed.

Lemma pops_shape_f_bump cfg : pops_shape (nz cfg) (nx cfg) (f_bump cfg).
Proof.
  split; [done|]. unfold f_bump. cbn [replicate].
  repeat (apply Forall_cons_2; [auto using shape_rho_bump, shape_np_full|]).
  apply Forall_nil_2.
Qed.

Lemma at_rho_bump cfg z x :
  (5 < nz cfg)%nat → (z < nz cfg)%nat → (x < nx cfg)%nat →
  at_ (rho_bump cfg) z x = if decide (z = 5%nat) then 2 else 1.
Proof.
  intros. unfold rho_bump.
  rewrite (at_insert_row (nz cfg) (nx cfg)) by auto using shape_np_full.
  by rewrite at_np_full.
Qed.

Lemma node_f_bump cfg z x :
  (5 < nz cfg)%nat → (z < nz cfg)%nat → (x < nx cfg)%nat →
  node (f_bump cfg) z x = [at_ (rho_bump cfg) z x; 0; 0; 0; 0; 0; 0; 0; 0].
Proof.
  intros. unfold node, f_bump. cbn [replicate fmap list_fmap].
  by rewrite !at_np_full.
Qed.

Lemma bump_consistent z x :
  (z < nz default_config)%nat → (x < nx default_config)%nat →
  at_ (rho_bump default_config) z x = node_mass (f_bump default_config) z x ∧
  node_mom fst (f_bump default_config) z x = 0 ∧
  node_mom snd (f_bump default_config) z x = 0.
Proof.
  intros Hz Hx. unfold node_mass, node_mom.
  rewrite node_f_bump by (done || (simpl; lia)).
  unfold Rsum, c. cbn [zip_with foldr fst snd].
  split_and!; lra.
Qed.

Lemma bump_mass_changes :
  node_mass
    (stream (collide default_config (f_bump default_config) (rho_bump default_config)
               (u_init default_config) (u_init default_config))) 5 10
  = 2 - omega default_config / 3.
Proof.
  unfold node_mass.
  rewrite (node_stream_collide default_config (nz default_config) (nx default_config));
    [|apply pops_shape_f_bump|apply shape_rho_bump|apply shape_np_full..
     |simpl; lia|simpl; lia].
  unfold upstream, collided, c, w.
  cbn [fmap list_fmap seq fst snd lookup_total list_lookup_total].
  repeat match goal with
  | |- context [wrap ?n ?i] =>
      let v := eval vm_compute in (wrap n i) in change (wrap n i) with v
  end.
  unfold f_bump, u_init. cbn [replicate lookup_total list_lookup_total].
  rewrite !at_rho_bump, !at_np_full by (simpl; lia).
  repeat case_decide; try lia.
  unfold Rsum, feq_node. cbn [foldr fst snd]. simpl omega. dec_unfold. field.
Qed.

Lemma node_uniform nz nx vs z x :
  (z < nz)%nat → (x < nx)%nat → node (uniform_pops nz nx vs) z x = vs.
Proof.
  intros Hz Hx. unfold node, uniform_pops. rewrite <-list_fmap_compose.
  rewrite <-(list_fmap_id vs) at 2. apply list_fmap_ext.
  intros _ v _. simpl. by apply at_np_full.
Qed.

(** ** Repeated steps *)

Lemma run_steps_ok cfg ts s :
  wf_config cfg → state_shape cfg s →
  ∃ s', run_steps cfg ts s = Ok s' ∧ state_shape cfg s'.
Proof.
  intros Hwf. revert s. induction ts as [|t ts IH]; intros [[[f rho] ux] uz] Hs.
  - by eexists.
  - destruct Hs as (Hf & Hr & Hu & Hv).
    destruct (collide_and_stream_ok cfg f rho ux uz t Hwf Hf Hr Hu Hv)
      as (m & _ & _ & Hsolid & Hf' & Hstep).
    cbn zeta in *. cbn [run_steps]. rewrite Hstep.
    unfold mbind, result_bind. cbv beta iota.
    apply IH. split_and!; eauto 10 with shape.
Qed.

Lemma negated_rest_step cfg t :
  wf_config cfg →
  ∃ solid,
    collide_and_stream cfg (f_neg cfg) (rho_neg cfg) (u_init cfg) (u_init cfg) t =
      Ok (f_neg cfg, rho_neg cfg, u_init cfg, u_init cfg, solid).
Proof.
  intros Hwf. unfold f_neg, rho_neg, u_init, w. cbn [fmap list_fmap].
  destruct (collide_and_stream_uniform cfg
              (-(4/9)) (-(1/9)) (-(1/9)) (-(1/9)) (-(1/9))
              (-(1/36)) (-(1/36)) (-(1/36)) (-(1/36)) (-1) 0 0 t Hwf)
    as (solid & Hs & _ & Hstep).
  exists solid. rewrite Hstep.
  assert (Hvs : zip_with (λ fv fe, (1.0 - omega cfg) * fv + omega cfg * fe)
                  [-(4/9); -(1/9); -(1/9); -(1/9); -(1/9);
                   -(1/36); -(1/36); -(1/36); -(1/36)]
                  (zip_with (λ wi ci, feq_node wi ci (-1) 0 0) w c) =
                [-(4/9); -(1/9); -(1/9); -(1/9); -(1/9);
                 -(1/36); -(1/36); -(1/36); -(1/36)]).
  { unfold w, c. cbn [zip_with]. uniform_fields. }
  rewrite Hvs. unfold c. cbn [zip_with].
  rewrite <-(mask_fill_np_full (nz cfg) (nx cfg) solid 0) by done.
  uniform_fields.
Qed.

(** ** A flat fin *)

Lemma py_round_near (r : R) (k : Z) :
  IZR k - 1 / 2 < r < IZR k + 1 / 2 → py_round r = k.
Proof.
  intros [Hlo Hhi]. unfold py_round.
  pose proof (Zfloor_bound r) as [Hf1 Hf2].
  destruct (Rle_dec (IZR k) r) as [Hk|Hk].
  - assert (Zfloor r = k) as -> by (apply Zfloor_eq; lra).
    destruct (Rlt_dec _ _) as [|Hn]; [done|lra].
  - assert (Zfloor r = (k - 1)%Z) as ->.
    { apply Zfloor_eq. rewrite minus_IZR. lra. }
    rewrite minus_IZR.
    destruct (Rlt_dec _ _) as [|_]; [lra|].
    destruct (Rlt_dec _ _) as [|]; [f_equal; lia|lra].
Qed.

Lemma hypot_1_0 : np_hypot 1.0 0 = 1.
Proof.
  unfold np_hypot. replace (1.0 * 1.0 + 0 * 0) with 1 by (dec_unfold; field).
  apply sqrt_1.
Qed.

Lemma fin_normal_flat d : d = 0 → fin_normal d = (0, -1).
Proof.
  intros ->. unfold fin_normal. rewrite tangent_never_degenerate, hypot_1_0.
  f_equal; dec_unfold; field.
Qed.

Lemma n_samples_flat : n_samples flat_config = 6%nat.
Proof.
  unfold n_samples, py_max, py_int. simpl H_fin.
  destruct (Rlt_dec _ _) as [|_]; [lra|].
  destruct (Rle_dec _ _) as [_|]; [|lra].
  by rewrite ZfloorZ.
Qed.

Lemma z_center_flat t : z_center flat_config t = [3/2; 3/2].
Proof.
  unfold z_center. change (xs_local flat_config) with [1%Z; 2%Z].
  cbn [fmap list_fmap]. simpl. repeat f_equal; dec_unfold; field.
Qed.

Lemma s_vals_flat :
  s_vals flat_config = [-1/2; -3/10; -1/10; 1/10; 3/10; 1/2].
Proof.
  unfold s_vals, np_linspace. rewrite n_samples_flat.
  cbn [seq fmap list_fmap Nat.ltb Nat.leb Nat.sub insert list_insert].
  simpl H_fin. simpl INR. repeat f_equal; dec_unfold; field.
Qed.

Lemma mark_sample_eval cfg x_c z_c n_hat m s ix iz :
  py_round (IZR x_c + n_hat.1 * s) = ix → py_round (z_c + n_hat.2 * s) = iz →
  mark_sample cfg x_c z_c n_hat m s =
    if in_interior cfg iz ix then grid_set m (Z.to_nat iz) (Z.to_nat ix) true else m.
Proof. intros <- <-. reflexivity. Qed.

Ltac flat_sample kx kz :=
  eapply fold_left_step;
  [ erewrite mark_sample_eval;
    [
    | apply (py_round_near _ kx); cbn [fst snd]; lra
    | apply (py_round_near _ kz); cbn [fst snd]; lra ];
    cbn; reflexivity
  | ].

Lemma update_fin_mask_flat t :
  update_fin_mask flat_config t =
    Ok [ [false; false; false; false];
         [false; true;  true;  false];
         [false; true;  true;  false];
         [false; false; false; false] ].
Proof.
  unfold update_fin_mask, rasterize. rewrite z_center_flat.
  unfold dzdx_of. cbn [length lookup list_lookup Nat.sub drop take replicate zip_with app
                       insert list_insert].
  unfold mbind, result_bind. cbv beta iota.
  destruct (Req_dec_T (lambda_fin flat_config) 0) as [Hl|_]; [simpl in Hl; lra|].
  f_equal. change (xs_local flat_config) with [1%Z; 2%Z].
  cbn [zip zip_with]. unfold np_full. cbn [replicate nz nx flat_config].
  eapply fold_left_step.
  { unfold mark_column. rewrite fin_normal_flat by lra. rewrite s_vals_flat.
    flat_sample 1%Z 2%Z. flat_sample 1%Z 2%Z. flat_sample 1%Z 2%Z.
    flat_sample 1%Z 1%Z. flat_sample 1%Z 1%Z. flat_sample 1%Z 1%Z. reflexivity. }
  eapply fold_left_step.
  { unfold mark_column. rewrite fin_normal_flat by lra. rewrite s_vals_flat.
    flat_sample 2%Z 2%Z. flat_sample 2%Z 2%Z. flat_sample 2%Z 2%Z.
    flat_sample 2%Z 1%Z. flat_sample 2%Z 1%Z. flat_sample 2%Z 1%Z. reflexivity. }
  reflexivity.
Qed.

(** * The claims *)

(** ** Bounce-back *)

(** C1: at a solid node the bounce-back phase does not exchange opposite
    populations.  One step of the script's grid from a uniform flow towards
    east (density 1, velocity (1, 0)), at time 0: the wall node (0, 0) is
    solid; streaming leaves there 28/45 towards east and 17/90 towards
    west; the step returns 28/45 towards east, not the 17/90 that a
    reflection would have put in its place. *)
Lemma bounce_back_no_reflection :
  let cfg := default_config in
  let rho := np_full 120 280 1 in
  let ux := np_full 120 280 1 in
  let uz := np_full 120 280 0 in
  let streamed := stream (collide cfg (f_east cfg) rho ux uz) in
  ∃ f' rho' ux' uz' solid,
    collide_and_stream cfg (f_east cfg) rho ux uz 0 = Ok (f', rho', ux', uz', solid) ∧
    at_ solid 0 0 = true ∧
    at_ (streamed !!! 1%nat) 0 0 = 28 / 45 ∧
    at_ (streamed !!! 3%nat) 0 0 = 17 / 90 ∧
    at_ (f' !!! 1%nat) 0 0 = 28 / 45.
Proof.
  cbn zeta.
  destruct (collide_and_stream_ok default_config (f_east default_config)
              (np_full 120 280 1) (np_full 120 280 1) (np_full 120 280 0) 0)
    as (m & Hm & Hsm & Hsolid & _ & Hstep);
    [apply wf_config_default|apply pops_shape_uniform|apply shape_np_full..|].
  cbn zeta in Hstep.
  eexists _, _, _, _, _. split; [exact Hstep|].
  split; [apply at_solid_row0; [done|simpl; lia..]|].
  unfold f_east.
  rewrite (collide_uniform default_config 120 280).
  unfold w, c. cbn [zip_with]. rewrite stream_uniform.
  unfold uniform_pops. cbn [fmap list_fmap lookup_total list_lookup_total].
  rewrite !at_np_full by lia.
  unfold feq_node. cbn [fst snd]. simpl omega.
  split_and!; dec_unfold; field.
Qed.

(** C2: the bounce-back loop, which exchanges each pair once at index [i]
    and once more at index [opposite[i]], is the identity on the
    populations: for every population array of shape (9, nz, nx) and every
    solid mask of shape (nz, nx) the populations after the phase are those
    before it, at every node and in every direction. *)
Theorem bounce_back_identity nz nx (solid : grid bool) (f : pops) :
  pops_shape nz nx f → shape nz nx solid →
  bounce_back solid f = f ∧
  ∀ i z x, at_ (bounce_back solid f !!! i) z x = at_ (f !!! i) z x.
Proof.
  intros Hf Hm. assert (Hid := bounce_back_id nz nx solid f Hf Hm).
  split; [done|]. intros i z x. by rewrite Hid.
Qed.

(** An instance: nine grids of one row and two columns, the first node solid. *)
Lemma bounce_back_identity_witness :
  let f := [ [[1; 2]]; [[3; 4]]; [[5; 6]]; [[7; 8]]; [[9; 10]];
             [[11; 12]]; [[13; 14]]; [[15; 16]]; [[17; 18]] ] in
  bounce_back [[true; false]] f = f ∧
  ∀ i z x, at_ (bounce_back [[true; false]] f !!! i) z x = at_ (f !!! i) z x.
Proof.
  apply (bounce_back_identity 1 2).
  - split; [reflexivity|]. repeat constructor.
  - split; [reflexivity|]. repeat constructor.
Defined.

(** ** Numerical instability *)

(** C3, counterexample: from the negated rest state (every population minus
    its weight, density -1, velocity 0) the step on the script's grid
    returns that same state, whose density is -1 at every node, and raises
    nothing. *)
Lemma negative_density_returned :
  ∃ solid,
    collide_and_stream default_config (f_neg default_config)
        (rho_neg default_config) (u_init default_config) (u_init default_config) 0 =
      Ok (f_neg default_config, rho_neg default_config,
          u_init default_config, u_init default_config, solid) ∧
    at_ (rho_neg default_config) 0 0 < 0.
Proof.
  destruct (negated_rest_step default_config 0 wf_config_default) as (solid & Hstep).
  exists solid. split; [done|].
  unfold rho_neg. rewrite at_np_full by (simpl; lia). lra.
Qed.

(** C3, amended: the step checks nothing about the fields it recovers.  On
    parameters for which the geometry generator raises nothing, every state
    of the program's shapes is advanced: one step returns a state at every
    time, and so does the loop of [update] for every number of steps,
    whatever the sign of the density. *)
Theorem no_instability_check cfg f rho ux uz t plot_every frame :
  wf_config cfg → state_shape cfg (f, rho, ux, uz) →
  (∃ out, collide_and_stream cfg f rho ux uz t = Ok out) ∧
  (∃ s', update cfg plot_every frame (f, rho, ux, uz) = Ok s').
Proof.
  intros Hwf Hs. split.
  - destruct Hs as (Hf & Hr & Hu & Hv).
    destruct (collide_and_stream_ok cfg f rho ux uz t Hwf Hf Hr Hu Hv)
      as (m & _ & _ & _ & _ & Hstep).
    eexists. exact Hstep.
  - destruct (run_steps_ok cfg
                ((λ k : nat, INR (frame * plot_every + k)) <$> seq 0 plot_every)
                (f, rho, ux, uz) Hwf Hs) as (s' & Hrun & _).
    by exists s'.
Qed.

(** An instance: the script's grid, the negated rest state, five steps. *)
Lemma no_instability_check_witness :
  (∃ out, collide_and_stream default_config (f_neg default_config)
            (rho_neg default_config) (u_init default_config)
            (u_init default_config) 0 = Ok out) ∧
  (∃ s', update default_config 5 0
           (f_neg default_config, rho_neg default_config,
            u_init default_config, u_init default_config) = Ok s').
Proof.
  apply no_instability_check.
  - apply wf_config_default.
  - split_and!; [apply pops_shape_uniform|apply shape_np_full..].
Defined.

(** ** Macroscopic recovery *)

(** C4, counterexample: for a uniform flow towards east (density 1,
    velocity (1, 0)) on the script's grid, the wall node (0, 0) is solid
    and the returned velocity there is 0, while the populations returned
    there carry the momentum 1: [rho * ux] differs from the sum of
    [c_x * f_i]. *)
Lemma wall_momentum_not_recovered :
  ∃ f' rho' ux' uz' solid,
    collide_and_stream default_config (f_east default_config)
      (np_full 120 280 1) (np_full 120 280 1) (np_full 120 280 0) 0 =
      Ok (f', rho', ux', uz', solid) ∧
    at_ solid 0 0 = true ∧
    at_ rho' 0 0 * at_ ux' 0 0 ≠ node_mom fst f' 0 0.
Proof.
  destruct (collide_and_stream_uniform default_config 0 1 0 0 0 0 0 0 0 1 1 0 0
              wf_config_default) as (solid & Hs & Hrow & Hstep).
  eexists _, _, _, _, solid. split; [exact Hstep|].
  assert (Hsolid : at_ solid 0 0 = true) by (apply Hrow; simpl; lia).
  split; [done|].
  rewrite (at_mask_fill (nz default_config) (nx default_config));
    [|apply shape_np_full|done|simpl; lia..].
  unfold node_mom. rewrite Hsolid, node_uniform by (simpl; lia).
  unfold w, c, Rsum, feq_node. cbn [zip_with foldr fst snd]. simpl omega.
  dec_unfold. lra.
Qed.

(** C4, amended: after the recovery phase of a step, at every node the
    density is the sum of the nine populations; at a solid node both
    velocity components are 0; at a node that is not solid and whose
    density is not 0, [rho * ux] and [rho * uz] are the sums of
    [c_x * f_i] and of [c_z * f_i]. *)
Theorem recovery_relations cfg f rho ux uz t :
  wf_config cfg → pops_shape (nz cfg) (nx cfg) f →
  shape (nz cfg) (nx cfg) rho → shape (nz cfg) (nx cfg) ux → shape (nz cfg) (nx cfg) uz →
  ∃ f' rho' ux' uz' solid,
    collide_and_stream cfg f rho ux uz t = Ok (f', rho', ux', uz', solid) ∧
    ∀ z x, (z < nz cfg)%nat → (x < nx cfg)%nat →
      at_ rho' z x = node_mass f' z x ∧
      (at_ solid z x = true → at_ ux' z x = 0 ∧ at_ uz' z x = 0) ∧
      (at_ solid z x = false → at_ rho' z x ≠ 0 →
         at_ rho' z x * at_ ux' z x = node_mom fst f' z x ∧
         at_ rho' z x * at_ uz' z x = node_mom snd f' z x).
Proof.
  intros Hwf Hf Hr Hu Hv.
  destruct (collide_and_stream_ok cfg f rho ux uz t Hwf Hf Hr Hu Hv)
    as (m & _ & _ & Hsolid & Hf' & Hstep).
  cbn zeta in *.
  set (solid := gzip orb (solid_static cfg) m) in *.
  set (f' := stream (collide cfg f rho ux uz)) in *.
  eexists _, _, _, _, _. split; [exact Hstep|].
  intros z x Hz Hx.
  assert (Hrho : at_ (recover_rho f' rho) z x = node_mass f' z x)
    by by apply (at_recover_rho (nz cfg) (nx cfg)).
  split; [done|].
  rewrite !(at_mask_fill (nz cfg) (nx cfg)) by eauto with shape.
  split.
  - intros ->. split; dec_unfold; lra.
  - intros -> Hne.
    rewrite !(at_gzip (nz cfg) (nx cfg)) by eauto with shape.
    rewrite !(at_momentum (nz cfg) (nx cfg)) by done.
    split; field; done.
Qed.

(** An instance: the script's grid and the uniform flow towards east. *)
Lemma recovery_relations_witness :
  ∃ f' rho' ux' uz' solid,
    collide_and_stream default_config (f_east default_config)
      (np_full 120 280 1) (np_full 120 280 1) (np_full 120 280 0) 0 =
      Ok (f', rho', ux', uz', solid) ∧
    ∀ z x, (z < 120)%nat → (x < 280)%nat →
      at_ rho' z x = node_mass f' z x ∧
      (at_ solid z x = true → at_ ux' z x = 0 ∧ at_ uz' z x = 0) ∧
      (at_ solid z x = false → at_ rho' z x ≠ 0 →
         at_ rho' z x * at_ ux' z x = node_mom fst f' z x ∧
         at_ rho' z x * at_ uz' z x = node_mom snd f' z x).
Proof.
  apply (recovery_relations default_config).
  - apply wf_config_default.
  - apply pops_shape_uniform.
  - apply shape_np_full.
  - apply shape_np_full.
  - apply shape_np_full.
Defined.

(** ** Mass *)

(** C5, counterexample: on the script's grid take a fluid at rest whose
    density is 2 on row 5 and 1 elsewhere, carried by the rest population
    alone; its density and velocity are those recovered from the
    populations.  After collision and streaming the populations of node
    (5, 10) sum to 2 - omega / 3, not to 2. *)
Lemma node_mass_not_conserved :
  let cfg := default_config in
  let f' := stream (collide cfg (f_bump cfg) (rho_bump cfg) (u_init cfg) (u_init cfg)) in
  (∀ z x, (z < nz cfg)%nat → (x < nx cfg)%nat →
     at_ (rho_bump cfg) z x = node_mass (f_bump cfg) z x ∧
     at_ (rho_bump cfg) z x * at_ (u_init cfg) z x = node_mom fst (f_bump cfg) z x ∧
     at_ (rho_bump cfg) z x * at_ (u_init cfg) z x = node_mom snd (f_bump cfg) z x) ∧
  node_mass (f_bump cfg) 5 10 = 2 ∧
  node_mass f' 5 10 ≠ node_mass (f_bump cfg) 5 10.
Proof.
  cbn zeta. split_and!.
  - intros z x Hz Hx. destruct (bump_consistent z x Hz Hx) as (Hm & Hx0 & Hz0).
    rewrite Hx0, Hz0. unfold u_init. rewrite at_np_full by done.
    split_and!; [done|lra..].
  - destruct (bump_consistent 5 10) as (<- & _); [simpl; lia..|].
    rewrite at_rho_bump by (simpl; lia). by case_decide.
  - rewrite bump_mass_changes.
    destruct (bump_consistent 5 10) as (<- & _); [simpl; lia..|].
    rewrite at_rho_bump by (simpl; lia). case_decide; [|done].
    simpl omega. dec_unfold. lra.
Qed.

(** C5, amended: when the density of every node is the sum of its nine
    populations, the collision leaves that sum unchanged at every node;
    streaming then brings to a node the collided populations of its nine
    upstream nodes; and the mass summed over all nodes and all directions
    is unchanged by collision followed by streaming. *)
Theorem mass_conservation cfg f rho ux uz :
  pops_shape (nz cfg) (nx cfg) f →
  shape (nz cfg) (nx cfg) rho → shape (nz cfg) (nx cfg) ux → shape (nz cfg) (nx cfg) uz →
  (∀ z x, (z < nz cfg)%nat → (x < nx cfg)%nat → at_ rho z x = node_mass f z x) →
  (∀ z x, (z < nz cfg)%nat → (x < nx cfg)%nat →
     node_mass (collide cfg f rho ux uz) z x = node_mass f z x ∧
     node (stream (collide cfg f rho ux uz)) z x =
       (λ i, let '(z', x') := upstream (nz cfg) (nx cfg) i z x in
             collided cfg f rho ux uz i z' x') <$> seq 0 9) ∧
  total_mass (stream (collide cfg f rho ux uz)) = total_mass f.
Proof.
  intros Hf Hr Hu Hv Hrho. split.
  - intros z x Hz Hx. split.
    + apply (node_mass_collide cfg (nz cfg) (nx cfg)); auto.
    + by apply node_stream_collide.
  - rewrite (total_mass_stream (nz cfg) (nx cfg)) by auto using pops_shape_collide.
    by apply (total_mass_collide cfg (nz cfg) (nx cfg)).
Qed.

(** An instance: the script's grid and the density bump on row 5. *)
Lemma mass_conservation_witness :
  let cfg := default_config in
  let f := f_bump cfg in
  let rho := rho_bump cfg in
  let u := u_init cfg in
  (∀ z x, (z < nz cfg)%nat → (x < nx cfg)%nat →
     node_mass (collide cfg f rho u u) z x = node_mass f z x ∧
     node (stream (collide cfg f rho u u)) z x =
       (λ i, let '(z', x') := upstream (nz cfg) (nx cfg) i z x in
             collided cfg f rho u u i z' x') <$> seq 0 9) ∧
  total_mass (stream (collide cfg f rho u u)) = total_mass f.
Proof.
  apply (mass_conservation default_config).
  - apply pops_shape_f_bump.
  - apply shape_rho_bump.
  - apply shape_np_full.
  - apply shape_np_full.
  - intros z x Hz Hx. apply (bump_consistent z x Hz Hx).
Defined.

(** ** Equilibrium *)

(** C6: at every node the nine equilibrium populations sum to the density,
    and their first moments are the density times the velocity; at density
    1 and velocity 0 the equilibrium of direction [i] is [w_i] at every
    node. *)
Theorem equilibrium_moments nz nx (rho ux uz : grid R) z x :
  shape nz nx rho → shape nz nx ux → shape nz nx uz →
  (z < nz)%nat → (x < nx)%nat →
  node_mass (equilibrium rho ux uz) z x = at_ rho z x ∧
  node_mom fst (equilibrium rho ux uz) z x = at_ rho z x * at_ ux z x ∧
  node_mom snd (equilibrium rho ux uz) z x = at_ rho z x * at_ uz z x ∧
  equilibrium (np_full nz nx 1) (np_full nz nx 0) (np_full nz nx 0) =
    np_full nz nx <$> w.
Proof.
  intros Hr Hu Hv Hz Hx. unfold node_mass, node_mom.
  rewrite (node_equilibrium nz nx) by done.
  split_and!.
  - apply feq_node_mass.
  - apply feq_node_mom_x.
  - apply feq_node_mom_z.
  - apply equilibrium_rest.
Qed.

(** An instance: a single node of density 2 and velocity (1/10, -1/20). *)
Lemma equilibrium_moments_witness :
  node_mass (equilibrium [[2]] [[1/10]] [[-1/20]]) 0 0 = at_ [[2]] 0 0 ∧
  node_mom fst (equilibrium [[2]] [[1/10]] [[-1/20]]) 0 0 =
    at_ [[2]] 0 0 * at_ [[1/10]] 0 0 ∧
  node_mom snd (equilibrium [[2]] [[1/10]] [[-1/20]]) 0 0 =
    at_ [[2]] 0 0 * at_ [[-1/20]] 0 0 ∧
  equilibrium (np_full 1 1 1) (np_full 1 1 0) (np_full 1 1 0) = np_full 1 1 <$> w.
Proof.
  apply (equilibrium_moments 1 1 [[2]] [[1/10]] [[-1/20]] 0 0).
  - split; [reflexivity|]. repeat constructor.
  - split; [reflexivity|]. repeat constructor.
  - split; [reflexivity|]. repeat constructor.
  - lia.
  - lia.
Defined.

(** ** Rest state *)

(** C7: when every node holds the equilibrium populations of the uniform
    state at rest, with density 1 and velocity 0, one full step returns
    these populations, density 1 and velocity 0 at every node.  No
    assumption on the solid set is needed: the fixed point holds with the
    walls and with any fin. *)
Theorem rest_state_fixed_point cfg t :
  wf_config cfg →
  ∃ solid,
    collide_and_stream cfg (f_init cfg) (rho_init cfg) (u_init cfg) (u_init cfg) t =
      Ok (f_init cfg, rho_init cfg, u_init cfg, u_init cfg, solid).
Proof.
  intros Hwf. rewrite f_init_uniform. unfold rho_init, u_init, w.
  destruct (collide_and_stream_uniform cfg
              (4/9) (1/9) (1/9) (1/9) (1/9) (1/36) (1/36) (1/36) (1/36) 1 0 0 t Hwf)
    as (solid & Hs & _ & Hstep).
  exists solid. rewrite Hstep.
  assert (Hvs : zip_with (λ fv fe, (1.0 - omega cfg) * fv + omega cfg * fe)
                  [4/9; 1/9; 1/9; 1/9; 1/9; 1/36; 1/36; 1/36; 1/36]
                  (zip_with (λ wi ci, feq_node wi ci 1 0 0) w c) =
                [4/9; 1/9; 1/9; 1/9; 1/9; 1/36; 1/36; 1/36; 1/36]).
  { unfold w, c. cbn [zip_with]. uniform_fields. }
  rewrite Hvs. unfold c. cbn [zip_with].
  rewrite <-(mask_fill_np_full (nz cfg) (nx cfg) solid 0) by done.
  uniform_fields.
Qed.

(** An instance: the script's grid at time 0. *)
Lemma rest_state_fixed_point_witness :
  ∃ solid,
    collide_and_stream default_config (f_init default_config)
        (rho_init default_config) (u_init default_config) (u_init default_config) 0 =
      Ok (f_init default_config, rho_init default_config,
          u_init default_config, u_init default_config, solid).
Proof. apply rest_state_fixed_point. apply wf_config_default. Defined.

(** ** Fin geometry *)

(** C8: at every time, every node the fin mask marks lies strictly inside
    the grid: its row is between 1 and nz - 2 and its column between 1 and
    nx - 2, so row 0, row nz - 1, column 0 and column nx - 1 are never
    marked. *)
Theorem fin_mask_interior cfg t (fin_mask : grid bool) iz ix :
  update_fin_mask cfg t = Ok fin_mask →
  glookup fin_mask iz ix = Some true →
  (1 ≤ iz ≤ nz cfg - 2)%nat ∧ (1 ≤ ix ≤ nx cfg - 2)%nat.
Proof.
  intros Hm Hmark. by apply (interior_only_rasterize cfg (z_center cfg t) fin_mask).
Qed.

(** An instance: node (2, 1) of the flat fin on the 4 x 4 grid. *)
Lemma fin_mask_interior_witness :
  (1 ≤ 2 ≤ nz flat_config - 2)%nat ∧ (1 ≤ 1 ≤ nx flat_config - 2)%nat.
Proof.
  apply (fin_mask_interior flat_config 0
           [ [false; false; false; false];
             [false; true;  true;  false];
             [false; true;  true;  false];
             [false; false; false; false] ] 2 1).
  - apply update_fin_mask_flat.
  - reflexivity.
Defined.

(** C9: the geometry generator is periodic in time with period
    [1 / f_wave]: the fin mask (or the error) at time [t + 1 / f_wave] is
    the one at time [t]. *)
Theorem fin_mask_periodic cfg t :
  f_wave cfg ≠ 0 →
  update_fin_mask cfg (t + 1 / f_wave cfg) = update_fin_mask cfg t.
Proof.
  intros Hf. unfold update_fin_mask. by rewrite z_center_period.
Qed.

(** An instance: the script's parameters, whose period is 1000 steps. *)
Lemma fin_mask_periodic_witness :
  update_fin_mask default_config (0 + 1 / f_wave default_config) =
    update_fin_mask default_config 0.
Proof.
  apply fin_mask_periodic. simpl. dec_unfold. lra.
Defined.

(** C10: the degenerate-tangent branch is never taken.  The tangent
    [(1, dzdx)] has norm at least 1 for every slope, so the test
    [norm_t == 0] is false and the normal is [(tz, -tx)] of the normalised
    tangent, never the default [(0, 1)]. *)
Theorem tangent_fallback_unreachable (dzdx_local : R) :
  1 <= np_hypot 1.0 dzdx_local ∧
  tangent_degenerate dzdx_local = false ∧
  fin_normal dzdx_local =
    (dzdx_local / np_hypot 1.0 dzdx_local, - (1.0 / np_hypot 1.0 dzdx_local)) ∧
  fin_normal dzdx_local ≠ (0.0, 1.0).
Proof.
  pose proof (np_hypot_1_ge dzdx_local) as Hh.
  assert (Hn : fin_normal dzdx_local =
    (dzdx_local / np_hypot 1.0 dzdx_local, - (1.0 / np_hypot 1.0 dzdx_local))).
  { unfold fin_normal. by rewrite tangent_never_degenerate. }
  split_and!; [done|apply tangent_never_degenerate|done|].
  rewrite Hn. intros [= _ Hz].
  assert (0 < 1.0 / np_hypot 1.0 dzdx_local).
  { apply Rdiv_lt_0_compat; dec_unfold; lra. }
  dec_unfold. lra.
Qed.

(** * Further properties of the solver *)


(** ** Streaming at a node *)

Lemma at_stream nz nx f i z x :
  pops_shape nz nx f → (i < 9)%nat → (z < nz)%nat → (x < nx)%nat →
  at_ (stream f !!! i) z x =
    at_ (f !!! i) (wrap nz (Z.of_nat z - (c !!! i).2)) (wrap nx (Z.of_nat x - (c !!! i).1)).
Proof.
  intros Hf Hi Hz Hx.
  destruct (pops_shape_inv _ _ _ Hf)
    as (g0 & g1 & g2 & g3 & g4 & g5 & g6 & g7 & g8 & -> & ? & ? & ? & ? & ? & ? & ? & ? & ?).
  unfold stream, c.
  do 9 (destruct i as [|i];
        [cbn [zip_with lookup_total list_lookup_total fst snd];
         by apply (at_roll2 nz nx)|]).
  lia.
Qed.

Lemma wrap_small n (i : nat) : (i < n)%nat → wrap n (Z.of_nat i) = i.
Proof. intros Hi. unfold wrap. rewrite Z.mod_small by lia. lia. Qed.

Lemma wrap_minus_one n : (0 < n)%nat → wrap n (Z.of_nat 0 - 1) = (n - 1)%nat.
Proof.
  intros Hn. unfold wrap.
  replace (Z.of_nat 0 - 1)%Z with (Z.of_nat (n - 1) + (-1) * Z.of_nat n)%Z by lia.
  rewrite Z_mod_plus_full, Z.mod_small by lia. lia.
Qed.

Lemma wrap_past_end n : (0 < n)%nat → wrap n (Z.of_nat (n - 1) - -1) = 0%nat.
Proof.
  intros Hn. unfold wrap.
  replace (Z.of_nat (n - 1) - -1)%Z with (0 + 1 * Z.of_nat n)%Z by lia.
  rewrite Z_mod_plus_full, Z.mod_small by lia. lia.
Qed.

(** X1: streaming is periodic on both axes. After [stream], the
    population of direction [i] at node (z, x) is the one that was at the
    node one link upstream, indices taken modulo the grid size in x and in
    z alike: the north-moving population of the top row re-enters at the
    bottom row, the south-moving one of the bottom row at the top row, and
    likewise between the first and the last column. *)
Theorem stream_wraps_both_axes nz nx f z x :
  pops_shape nz nx f → (z < nz)%nat → (x < nx)%nat →
  (∀ i, (i < 9)%nat →
     at_ (stream f !!! i) z x =
       at_ (f !!! i) (wrap nz (Z.of_nat z - (c !!! i).2))
                     (wrap nx (Z.of_nat x - (c !!! i).1))) ∧
  at_ (stream f !!! 2%nat) 0 x = at_ (f !!! 2%nat) (nz - 1) x ∧
  at_ (stream f !!! 4%nat) (nz - 1) x = at_ (f !!! 4%nat) 0 x ∧
  at_ (stream f !!! 1%nat) z 0 = at_ (f !!! 1%nat) z (nx - 1) ∧
  at_ (stream f !!! 3%nat) z (nx - 1) = at_ (f !!! 3%nat) z 0.
Proof.
  intros Hf Hz Hx. split_and!.
  - intros i Hi. by apply at_stream.
  - rewrite (at_stream nz nx) by (done || lia). simpl.
    rewrite wrap_minus_one by lia. rewrite Z.sub_0_r, wrap_small by done. done.
  - rewrite (at_stream nz nx) by (done || lia). simpl.
    rewrite wrap_past_end by lia. rewrite Z.sub_0_r, wrap_small by done. done.
  - rewrite (at_stream nz nx) by (done || lia). simpl.
    rewrite wrap_minus_one by lia. rewrite Z.sub_0_r, wrap_small by done. done.
  - rewrite (at_stream nz nx) by (done || lia). simpl.
    rewrite wrap_past_end by lia. rewrite Z.sub_0_r, wrap_small by done. done.
Qed.

(** An instance: the script's grid, the density bump, node (5, 10). *)
Lemma stream_wraps_both_axes_witness :
  let cfg := default_config in
  let f := f_bump cfg in
  (∀ i, (i < 9)%nat →
     at_ (stream f !!! i) 5 10 =
       at_ (f !!! i) (wrap (nz cfg) (Z.of_nat 5 - (c !!! i).2))
                     (wrap (nx cfg) (Z.of_nat 10 - (c !!! i).1))) ∧
  at_ (stream f !!! 2%nat) 0 10 = at_ (f !!! 2%nat) (nz cfg - 1) 10 ∧
  at_ (stream f !!! 4%nat) (nz cfg - 1) 10 = at_ (f !!! 4%nat) 0 10 ∧
  at_ (stream f !!! 1%nat) 5 0 = at_ (f !!! 1%nat) 5 (nx cfg - 1) ∧
  at_ (stream f !!! 3%nat) 5 (nx cfg - 1) = at_ (f !!! 3%nat) 5 0.
Proof.
  apply (stream_wraps_both_axes (nz default_config) (nx default_config)).
  - apply pops_shape_f_bump.
  - simpl. lia.
  - simpl. lia.
Defined.

(** ** Collision at equilibrium *)

Lemma gzip_relax_same nz nx (k : R) (g : grid R) :
  shape nz nx g → gzip (λ fv fe, (1.0 - k) * fv + k * fe) g g = g.
Proof.
  intros Hg. apply (grid_ext nz nx); [eauto with shape..|].
  intros z x Hz Hx. rewrite (at_gzip nz nx) by done. dec_unfold. lra.
Qed.

Lemma collide_equilibrium cfg nz nx rho ux uz :
  shape nz nx rho → shape nz nx ux → shape nz nx uz →
  collide cfg (equilibrium rho ux uz) rho ux uz = equilibrium rho ux uz.
Proof.
  intros Hr Hu Hv. unfold collide.
  destruct (pops_shape_inv _ _ _ (pops_shape_equilibrium nz nx rho ux uz Hr Hu Hv))
    as (g0 & g1 & g2 & g3 & g4 & g5 & g6 & g7 & g8 & -> & ? & ? & ? & ? & ? & ? & ? & ? & ?).
  cbn [zip_with]. by rewrite !(gzip_relax_same nz nx).
Qed.

Lemma collide_omega_one cfg nz nx f rho ux uz :
  omega cfg = 1 → pops_shape nz nx f →
  shape nz nx rho → shape nz nx ux → shape nz nx uz →
  collide cfg f rho ux uz = equilibrium rho ux uz.
Proof.
  intros Hw Hf Hr Hu Hv. unfold collide.
  destruct (pops_shape_inv _ _ _ (pops_shape_equilibrium nz nx rho ux uz Hr Hu Hv))
    as (e0 & e1 & e2 & e3 & e4 & e5 & e6 & e7 & e8 & -> & ? & ? & ? & ? & ? & ? & ? & ? & ?).
  destruct (pops_shape_inv _ _ _ Hf)
    as (g0 & g1 & g2 & g3 & g4 & g5 & g6 & g7 & g8 & -> & ? & ? & ? & ? & ? & ? & ? & ? & ?).
  cbn [zip_with].
  repeat f_equal;
    (apply (grid_ext nz nx); [eauto with shape..|];
     intros z x Hz Hx; rewrite (at_gzip nz nx) by done; rewrite Hw; dec_unfold; lra).
Qed.

Lemma Rsum_zip_with_scale_lin (k1 k2 : R) (cs : list (Z * Z)) comp (l1 l2 : list R) :
  length l1 = length cs → length l2 = length cs →
  Rsum (zip_with (λ ci v, IZR (comp ci) * v) cs
          (zip_with (λ a b, k1 * a + k2 * b) l1 l2)) =
    k1 * Rsum (zip_with (λ ci v, IZR (comp ci) * v) cs l1) +
    k2 * Rsum (zip_with (λ ci v, IZR (comp ci) * v) cs l2).
Proof.
  revert l1 l2. induction cs as [|ci cs IH]; intros [|a l1] [|b l2] H1 H2;
    simplify_eq/=; [lra|].
  rewrite IH by done. lra.
Qed.

Lemma node_mom_collide cfg nz nx comp f rho ux uz z x m :
  pops_shape nz nx f → shape nz nx rho → shape nz nx ux → shape nz nx uz →
  (z < nz)%nat → (x < nx)%nat →
  Rsum (zip_with (λ ci v, IZR (comp ci) * v) c
          (zip_with (λ wi ci, feq_node wi ci (at_ rho z x) (at_ ux z x) (at_ uz z x)) w c))
    = m →
  m = node_mom comp f z x →
  node_mom comp (collide cfg f rho ux uz) z x = node_mom comp f z x.
Proof.
  intros Hf Hr Hu Hv Hz Hx Hfeq Hm.
  unfold node_mom in *. rewrite (node_collide cfg nz nx) by done.
  rewrite Rsum_zip_with_scale_lin.
  - rewrite Hfeq, Hm. dec_unfold. field.
  - unfold node. rewrite length_fmap. by destruct Hf as [-> _].
  - done.
Qed.

Lemma grid_sum_gmap_scale (k : R) (g : grid R) :
  grid_sum (gmap (λ v, k * v) g) = k * grid_sum g.
Proof.
  assert (Hrow : ∀ row, Rsum ((λ v, k * v) <$> row) = k * Rsum row).
  { induction row as [|v row IH]; [simpl; lra|].
    rewrite fmap_cons, !Rsum_cons, IH. lra. }
  unfold grid_sum, gmap. induction g as [|row g IH]; [simpl; lra|].
  rewrite !fmap_cons, !Rsum_cons, Hrow, IH. lra.
Qed.

Lemma grid_sum_momentum nz nx comp f u :
  pops_shape nz nx f → shape nz nx u →
  grid_sum (momentum comp f u) = total_mom comp f.
Proof.
  intros Hf Hu.
  destruct (pops_shape_inv _ _ _ Hf)
    as (g0 & g1 & g2 & g3 & g4 & g5 & g6 & g7 & g8 & -> & ? & ? & ? & ? & ? & ? & ? & ? & ?).
  unfold momentum, total_mom, Rsum, c.
  cbn [fold_left zip zip_with foldr fst snd].
  rewrite !(grid_sum_gzip_plus nz nx) by eauto 30 with shape.
  rewrite !grid_sum_gmap_scale.
  rewrite (grid_fill_full nz nx) by done.
  replace (np_full nz nx 0.0) with (np_full nz nx 0)
    by (apply np_full_eq; dec_unfold; lra).
  rewrite grid_sum_np_full_0. lra.
Qed.

Lemma total_mom_stream nz nx comp f :
  pops_shape nz nx f → total_mom comp (stream f) = total_mom comp f.
Proof.
  intros Hf.
  destruct (pops_shape_inv _ _ _ Hf)
    as (g0 & g1 & g2 & g3 & g4 & g5 & g6 & g7 & g8 & -> & _).
  unfold total_mom, stream, c. cbn [zip_with].
  by rewrite !grid_sum_roll2.
Qed.

Lemma total_mom_collide cfg nz nx f rho ux uz :
  pops_shape nz nx f → shape nz nx rho → shape nz nx ux → shape nz nx uz →
  (∀ z x, (z < nz)%nat → (x < nx)%nat →
     at_ rho z x * at_ ux z x = node_mom fst f z x ∧
     at_ rho z x * at_ uz z x = node_mom snd f z x) →
  total_mom fst (collide cfg f rho ux uz) = total_mom fst f ∧
  total_mom snd (collide cfg f rho ux uz) = total_mom snd f.
Proof.
  intros Hf Hr Hu Hv Hcons.
  rewrite <-!(grid_sum_momentum nz nx _ _ ux) by auto using pops_shape_collide.
  split; f_equal;
    (apply (grid_ext nz nx); [auto using shape_momentum, pops_shape_collide..|];
     intros z x Hz Hx;
     rewrite !(at_momentum nz nx) by auto using pops_shape_collide;
     destruct (Hcons z x Hz Hx) as [Hx1 Hz1]).
  - apply (node_mom_collide cfg nz nx fst f rho ux uz z x (at_ rho z x * at_ ux z x));
      auto using feq_node_mom_x.
  - apply (node_mom_collide cfg nz nx snd f rho ux uz z x (at_ rho z x * at_ uz z x));
      auto using feq_node_mom_z.
Qed.

(** ** Steps in a row *)

Lemma run_steps_app cfg ts1 ts2 s :
  run_steps cfg (ts1 ++ ts2) s = run_steps cfg ts1 s ≫= run_steps cfg ts2.
Proof.
  revert s. induction ts1 as [|t ts1 IH]; intros [[[f rho] ux] uz]; [done|].
  cbn [app run_steps].
  destruct (collide_and_stream cfg f rho ux uz t) as [[[[[f' rho'] ux'] uz'] solid]|e];
    [|done].
  unfold mbind at 1 3, result_bind at 1 3. cbv beta iota. apply IH.
Qed.





(** ** The run from the initial state *)

Lemma rest_step cfg t :
  wf_config cfg →
  ∃ solid,
    collide_and_stream cfg (f_init cfg) (rho_init cfg) (u_init cfg) (u_init cfg) t =
      Ok (f_init cfg, rho_init cfg, u_init cfg, u_init cfg, solid).
Proof.
  intros Hwf. rewrite f_init_uniform. unfold rho_init, u_init, w.
  destruct (collide_and_stream_uniform cfg
              (4/9) (1/9) (1/9) (1/9) (1/9) (1/36) (1/36) (1/36) (1/36) 1 0 0 t Hwf)
    as (solid & Hs & _ & Hstep).
  exists solid. rewrite Hstep.
  assert (Hvs : zip_with (λ fv fe, (1.0 - omega cfg) * fv + omega cfg * fe)
                  [4/9; 1/9; 1/9; 1/9; 1/9; 1/36; 1/36; 1/36; 1/36]
                  (zip_with (λ wi ci, feq_node wi ci 1 0 0) w c) =
                [4/9; 1/9; 1/9; 1/9; 1/9; 1/36; 1/36; 1/36; 1/36]).
  { unfold w, c. cbn [zip_with]. uniform_fields. }
  rewrite Hvs. unfold c. cbn [zip_with].
  rewrite <-(mask_fill_np_full (nz cfg) (nx cfg) solid 0) by done.
  uniform_fields.
Qed.

Lemma run_steps_rest cfg ts :
  wf_config cfg →
  run_steps cfg ts (f_init cfg, rho_init cfg, u_init cfg, u_init cfg) =
    Ok (f_init cfg, rho_init cfg, u_init cfg, u_init cfg).
Proof.
  intros Hwf. induction ts as [|t ts IH]; [done|].
  cbn [run_steps]. destruct (rest_step cfg t Hwf) as (solid & ->).
  unfold mbind, result_bind. cbv beta iota. exact IH.
Qed.

Lemma speed_np_full_0 nz nx : speed (np_full nz nx 0) (np_full nz nx 0) = np_full nz nx 0.
Proof.
  unfold speed. rewrite gzip_np_full. apply np_full_eq.
  replace (0 ^ 2 + 0 ^ 2) with 0 by lra. apply sqrt_0.
Qed.

(** X3: the script's run never leaves the rest state. Started from the
    initial fields (density 1, velocity 0, populations at equilibrium),
    every frame of [update] returns exactly these fields, whatever the fin
    does, and the speed that is displayed is 0 at every node. *)
Theorem run_stays_at_rest cfg plot_every frame :
  wf_config cfg →
  update cfg plot_every frame (f_init cfg, rho_init cfg, u_init cfg, u_init cfg) =
    Ok (f_init cfg, rho_init cfg, u_init cfg, u_init cfg) ∧
  speed (u_init cfg) (u_init cfg) = np_full (nz cfg) (nx cfg) 0.
Proof.
  intros Hwf. split; [by apply run_steps_rest|apply speed_np_full_0].
Qed.

(** An instance: the script's parameters, frame 3. *)
Lemma run_stays_at_rest_witness :
  update default_config 5 3
    (f_init default_config, rho_init default_config,
     u_init default_config, u_init default_config) =
    Ok (f_init default_config, rho_init default_config,
        u_init default_config, u_init default_config) ∧
  speed (u_init default_config) (u_init default_config) =
    np_full (nz default_config) (nx default_config) 0.
Proof. apply (run_stays_at_rest default_config 5 3), wf_config_default. Defined.

(** X4: frames tile the time axis. Running [update] for a frame and then
    for the next one is the same as stepping through the [2 * plot_every]
    consecutive times that start at [frame * plot_every]; an error of the
    first frame is the error of the pair. *)
Theorem update_frames_compose cfg plot_every frame s :
  update cfg plot_every frame s ≫= update cfg plot_every (S frame) =
    run_steps cfg
      ((λ k : nat, INR (frame * plot_every + k)) <$> seq 0 (2 * plot_every)) s.
Proof.
  unfold update. rewrite <-run_steps_app. f_equal.
  replace (2 * plot_every)%nat with (plot_every + plot_every)%nat by lia.
  rewrite seq_app, fmap_app. f_equal.
  rewrite (Nat.add_comm 0 plot_every), <-(fmap_add_seq plot_every 0), <-list_fmap_compose.
  apply list_fmap_ext. intros _ k _. simpl. f_equal. lia.
Qed.

(** X5: momentum. When the velocity fields agree with the populations
    ([rho * u] is the first moment at every node), the collision leaves
    both components of the momentum of every node unchanged, and collision
    followed by streaming leaves both components of the momentum summed
    over the lattice unchanged. *)
Theorem momentum_conservation cfg f rho ux uz :
  pops_shape (nz cfg) (nx cfg) f →
  shape (nz cfg) (nx cfg) rho → shape (nz cfg) (nx cfg) ux → shape (nz cfg) (nx cfg) uz →
  (∀ z x, (z < nz cfg)%nat → (x < nx cfg)%nat →
     at_ rho z x * at_ ux z x = node_mom fst f z x ∧
     at_ rho z x * at_ uz z x = node_mom snd f z x) →
  (∀ z x, (z < nz cfg)%nat → (x < nx cfg)%nat →
     node_mom fst (collide cfg f rho ux uz) z x = node_mom fst f z x ∧
     node_mom snd (collide cfg f rho ux uz) z x = node_mom snd f z x) ∧
  total_mom fst (stream (collide cfg f rho ux uz)) = total_mom fst f ∧
  total_mom snd (stream (collide cfg f rho ux uz)) = total_mom snd f.
Proof.
  intros Hf Hr Hu Hv Hmom. split.
  - intros z x Hz Hx. destruct (Hmom z x Hz Hx) as [Hx1 Hz1]. split.
    + eapply (node_mom_collide cfg (nz cfg) (nx cfg) fst f rho ux uz z x); [done..| |done].
      apply feq_node_mom_x.
    + eapply (node_mom_collide cfg (nz cfg) (nx cfg) snd f rho ux uz z x); [done..| |done].
      apply feq_node_mom_z.
  - rewrite !(total_mom_stream (nz cfg) (nx cfg)) by auto using pops_shape_collide.
    by apply (total_mom_collide cfg (nz cfg) (nx cfg)).
Qed.

(** An instance: the script's grid and the density bump at rest. *)
Lemma momentum_conservation_witness :
  let cfg := default_config in
  let f := f_bump cfg in
  let rho := rho_bump cfg in
  let u := u_init cfg in
  (∀ z x, (z < nz cfg)%nat → (x < nx cfg)%nat →
     node_mom fst (collide cfg f rho u u) z x = node_mom fst f z x ∧
     node_mom snd (collide cfg f rho u u) z x = node_mom snd f z x) ∧
  total_mom fst (stream (collide cfg f rho u u)) = total_mom fst f ∧
  total_mom snd (stream (collide cfg f rho u u)) = total_mom snd f.
Proof.
  apply (momentum_conservation default_config).
  - apply pops_shape_f_bump.
  - apply shape_rho_bump.
  - apply shape_np_full.
  - apply shape_np_full.
  - intros z x Hz Hx. destruct (bump_consistent z x Hz Hx) as (_ & -> & ->).
    unfold u_init. rewrite at_np_full by done. lra.
Defined.

(** X6: the collision relaxes towards the equilibrium. Populations that
    are at the equilibrium of the fields they are collided with are left
    unchanged; with [omega = 1] the collision returns that equilibrium
    whatever the populations were; and when [omega] is not zero, the
    equilibrium is the only populations the collision leaves unchanged. *)
Theorem collision_fixed_points cfg f rho ux uz :
  pops_shape (nz cfg) (nx cfg) f →
  shape (nz cfg) (nx cfg) rho → shape (nz cfg) (nx cfg) ux → shape (nz cfg) (nx cfg) uz →
  collide cfg (equilibrium rho ux uz) rho ux uz = equilibrium rho ux uz ∧
  (omega cfg = 1 → collide cfg f rho ux uz = equilibrium rho ux uz) ∧
  (collide cfg f rho ux uz = f → omega cfg ≠ 0 → f = equilibrium rho ux uz).
Proof.
  intros Hf Hr Hu Hv. split_and!.
  - by apply (collide_equilibrium cfg (nz cfg) (nx cfg)).
  - intros Ho. by apply (collide_omega_one cfg (nz cfg) (nx cfg)).
  - intros Hfix Ho.
    assert (He := pops_shape_equilibrium _ _ _ _ _ Hr Hu Hv).
    destruct Hf as [Hlf Hsf], He as [Hle Hse].
    apply list_eq_same_length with 9%nat; [done..|].
    intros i g1 g2 Hi Hg1 Hg2.
    assert (Hs1 : shape (nz cfg) (nx cfg) g1).
    { eapply Forall_lookup_1 in Hsf; eauto. }
    assert (Hs2 : shape (nz cfg) (nx cfg) g2).
    { eapply Forall_lookup_1 in Hse; eauto. }
    apply (grid_ext (nz cfg) (nx cfg)); [done..|].
    intros z x Hz Hx.
    assert (Hci : collide cfg f rho ux uz !! i = Some g1) by (by rewrite Hfix).
    unfold collide in Hci. cbn zeta in Hci.
    apply lookup_zip_with_Some in Hci as (a & b & Hab & Ha & Hb).
    assert (a = g1) as -> by congruence.
    assert (b = g2) as -> by congruence.
    assert (Hat := f_equal (λ g, at_ g z x) Hab). cbv beta in Hat.
    rewrite (at_gzip (nz cfg) (nx cfg)) in Hat by done.
    dec_unfold. nra.
Qed.

(** An instance: the script's grid and the density bump. *)
Lemma collision_fixed_points_witness :
  let cfg := default_config in
  collide cfg (equilibrium (rho_bump cfg) (u_init cfg) (u_init cfg))
    (rho_bump cfg) (u_init cfg) (u_init cfg) =
    equilibrium (rho_bump cfg) (u_init cfg) (u_init cfg) ∧
  (omega cfg = 1 →
   collide cfg (f_bump cfg) (rho_bump cfg) (u_init cfg) (u_init cfg) =
     equilibrium (rho_bump cfg) (u_init cfg) (u_init cfg)) ∧
  (collide cfg (f_bump cfg) (rho_bump cfg) (u_init cfg) (u_init cfg) = f_bump cfg →
   omega cfg ≠ 0 →
   f_bump cfg = equilibrium (rho_bump cfg) (u_init cfg) (u_init cfg)).
Proof.
  apply (collision_fixed_points default_config).
  - apply pops_shape_f_bump.
  - apply shape_rho_bump.
  - apply shape_np_full.
  - apply shape_np_full.
Defined.

(** X7: the populations and the density that a step returns depend neither
    on the time nor on the fin. At any two times the step returns the same
    populations, the streamed result of the collision, and the same
    density, their sum at every node: the moving fin acts on the returned
    velocities only. *)
Theorem step_populations_ignore_fin cfg f rho ux uz t1 t2 :
  wf_config cfg → state_shape cfg (f, rho, ux, uz) →
  ∃ f' rho' ux1 uz1 solid1 ux2 uz2 solid2,
    collide_and_stream cfg f rho ux uz t1 = Ok (f', rho', ux1, uz1, solid1) ∧
    collide_and_stream cfg f rho ux uz t2 = Ok (f', rho', ux2, uz2, solid2) ∧
    f' = stream (collide cfg f rho ux uz) ∧
    ∀ z x, (z < nz cfg)%nat → (x < nx cfg)%nat → at_ rho' z x = node_mass f' z x.
Proof.
  intros Hwf (Hf & Hr & Hu & Hv).
  destruct (collide_and_stream_ok cfg f rho ux uz t1 Hwf Hf Hr Hu Hv)
    as (m1 & _ & _ & _ & Hf' & Hstep1).
  destruct (collide_and_stream_ok cfg f rho ux uz t2 Hwf Hf Hr Hu Hv)
    as (m2 & _ & _ & _ & _ & Hstep2).
  cbn zeta in *. eexists _, _, _, _, _, _, _, _.
  split_and!; [exact Hstep1|exact Hstep2|done|].
  intros z x Hz Hx. by apply (at_recover_rho (nz cfg) (nx cfg)).
Qed.

(** An instance: the script's grid and the density bump, at the times 0
    and 1. *)
Lemma step_populations_ignore_fin_witness :
  let cfg := default_config in
  let f := f_bump cfg in
  let rho := rho_bump cfg in
  let u := u_init cfg in
  ∃ f' rho' ux1 uz1 solid1 ux2 uz2 solid2,
    collide_and_stream cfg f rho u u 0 = Ok (f', rho', ux1, uz1, solid1) ∧
    collide_and_stream cfg f rho u u 1 = Ok (f', rho', ux2, uz2, solid2) ∧
    f' = stream (collide cfg f rho u u) ∧
    ∀ z x, (z < nz cfg)%nat → (x < nx cfg)%nat → at_ rho' z x = node_mass f' z x.
Proof.
  apply (step_populations_ignore_fin default_config).
  - apply wf_config_default.
  - split_and!; [apply pops_shape_f_bump|apply shape_rho_bump|apply shape_np_full..].
Defined.

(** X8: the solid set of a step. The mask [solid] that a step returns
    holds exactly the bottom row, the top row and the nodes of the fin mask
    of that time; at each of these nodes both returned velocity components
    are 0, and so is the speed computed from them. *)
Theorem solid_is_walls_and_fin cfg f rho ux uz t :
  wf_config cfg → state_shape cfg (f, rho, ux, uz) →
  ∃ f' rho' ux' uz' solid fin_mask,
    collide_and_stream cfg f rho ux uz t = Ok (f', rho', ux', uz', solid) ∧
    update_fin_mask cfg t = Ok fin_mask ∧
    ∀ z x, (z < nz cfg)%nat → (x < nx cfg)%nat →
      (at_ solid z x = true ↔
         z = 0%nat ∨ z = (nz cfg - 1)%nat ∨ at_ fin_mask z x = true) ∧
      (at_ solid z x = true →
         at_ ux' z x = 0 ∧ at_ uz' z x = 0 ∧ at_ (speed ux' uz') z x = 0).
Proof.
  intros Hwf (Hf & Hr & Hu & Hv).
  destruct (collide_and_stream_ok cfg f rho ux uz t Hwf Hf Hr Hu Hv)
    as (m & Hm & Hsm & Hsolid & Hf' & Hstep).
  cbn zeta in *. eexists _, _, _, _, _, m.
  split_and!; [exact Hstep|exact Hm|].
  intros z x Hz Hx.
  set (f' := stream (collide cfg f rho ux uz)) in *.
  assert (Hr' : shape (nz cfg) (nx cfg) (recover_rho f' rho)) by eauto with shape.
  assert (Hmx : shape (nz cfg) (nx cfg) (momentum fst f' ux)) by eauto with shape.
  assert (Hmz : shape (nz cfg) (nx cfg) (momentum snd f' uz)) by eauto with shape.
  split.
  - rewrite (at_gzip (nz cfg) (nx cfg)) by auto using shape_solid_static.
    rewrite at_solid_static by done.
    rewrite orb_true_iff, bool_decide_eq_true. tauto.
  - intros Hs.
    assert (Hux : at_ (mask_fill (gzip Rdiv (momentum fst f' ux) (recover_rho f' rho))
                         (gzip orb (solid_static cfg) m) 0.0) z x = 0).
    { rewrite (at_mask_fill (nz cfg) (nx cfg)) by eauto with shape.
      rewrite Hs. dec_unfold. lra. }
    assert (Huz : at_ (mask_fill (gzip Rdiv (momentum snd f' uz) (recover_rho f' rho))
                         (gzip orb (solid_static cfg) m) 0.0) z x = 0).
    { rewrite (at_mask_fill (nz cfg) (nx cfg)) by eauto with shape.
      rewrite Hs. dec_unfold. lra. }
    split_and!; [done..|].
    unfold speed. rewrite (at_gzip (nz cfg) (nx cfg)) by eauto with shape.
    rewrite Hux, Huz. replace (0 ^ 2 + 0 ^ 2) with 0 by lra. apply sqrt_0.
Qed.

(** An instance: the script's grid and the density bump, at time 0. *)
Lemma solid_is_walls_and_fin_witness :
  let cfg := default_config in
  ∃ f' rho' ux' uz' solid fin_mask,
    collide_and_stream cfg (f_bump cfg) (rho_bump cfg) (u_init cfg) (u_init cfg) 0 =
      Ok (f', rho', ux', uz', solid) ∧
    update_fin_mask cfg 0 = Ok fin_mask ∧
    ∀ z x, (z < nz cfg)%nat → (x < nx cfg)%nat →
      (at_ solid z x = true ↔
         z = 0%nat ∨ z = (nz cfg - 1)%nat ∨ at_ fin_mask z x = true) ∧
      (at_ solid z x = true →
         at_ ux' z x = 0 ∧ at_ uz' z x = 0 ∧ at_ (speed ux' uz') z x = 0).
Proof.
  apply (solid_is_walls_and_fin default_config).
  - apply wf_config_default.
  - split_and!; [apply pops_shape_f_bump|apply shape_rho_bump|apply shape_np_full..].
Defined.

Lemma feq_node_pos wi ci r u v :
  0 < wi → 0 < r → u ^ 2 + v ^ 2 < 1 / 3 → 0 < feq_node wi ci r u v.
Proof.
  intros Hw Hr Hu. unfold feq_node. cbn zeta.
  generalize (3.0 * (IZR ci.1 * u + IZR ci.2 * v)). intros cu.
  apply Rmult_lt_0_compat; [by apply Rmult_lt_0_compat|].
  pose proof (pow2_ge_0 (cu + 1)) as Hsq.
  dec_unfold. simpl pow in *. lra.
Qed.

(** X9: the equilibrium is positive at moderate speed. At a node whose
    density is positive and whose velocity satisfies [ux^2 + uz^2 < 1/3],
    all nine equilibrium populations are positive. *)
Theorem equilibrium_positive nz nx rho ux uz z x :
  shape nz nx rho → shape nz nx ux → shape nz nx uz →
  (z < nz)%nat → (x < nx)%nat →
  0 < at_ rho z x → at_ ux z x ^ 2 + at_ uz z x ^ 2 < 1 / 3 →
  Forall (λ v, 0 < v) (node (equilibrium rho ux uz) z x).
Proof.
  intros Hr Hu Hv Hz Hx Hrho Hsub.
  rewrite (node_equilibrium nz nx) by done.
  unfold w, c. cbn [zip_with].
  repeat (apply Forall_cons_2; [apply feq_node_pos; (done || lra)|]).
  apply Forall_nil_2.
Qed.

(** An instance: node (5, 10) of the density bump at rest. *)
Lemma equilibrium_positive_witness :
  Forall (λ v, 0 < v)
    (node (equilibrium (rho_bump default_config) (u_init default_config)
             (u_init default_config)) 5 10).
Proof.
  apply (equilibrium_positive (nz default_config) (nx default_config)).
  - apply shape_rho_bump.
  - apply shape_np_full.
  - apply shape_np_full.
  - simpl. lia.
  - simpl. lia.
  - destruct (bump_consistent 5 10) as (_ & _ & _); [simpl; lia..|].
    unfold rho_bump, at_. simpl. lra.
  - unfold u_init. rewrite at_np_full by (simpl; lia). lra.
Defined.

Lemma feq_node_mom2 r u v :
  Rsum (zip_with (λ ci fv, IZR ci.1 * IZR ci.1 * fv) c
          (zip_with (λ wi ci, feq_node wi ci r u v) w c)) = r * (1 / 3 + u * u) ∧
  Rsum (zip_with (λ ci fv, IZR ci.1 * IZR ci.2 * fv) c
          (zip_with (λ wi ci, feq_node wi ci r u v) w c)) = r * (u * v) ∧
  Rsum (zip_with (λ ci fv, IZR ci.2 * IZR ci.2 * fv) c
          (zip_with (λ wi ci, feq_node wi ci r u v) w c)) = r * (1 / 3 + v * v).
Proof.
  unfold Rsum, w, c, feq_node. cbn [zip_with foldr fst snd].
  split_and!; dec_unfold; field.
Qed.

(** X10: the second moments of the equilibrium. At every node the sums of
    [c_x c_x feq], [c_x c_z feq] and [c_z c_z feq] over the nine directions
    are [rho (1/3 + ux ux)], [rho ux uz] and [rho (1/3 + uz uz)]: an
    isotropic pressure [rho / 3] and the momentum flux. *)
Theorem equilibrium_second_moments nz nx rho ux uz z x :
  shape nz nx rho → shape nz nx ux → shape nz nx uz →
  (z < nz)%nat → (x < nx)%nat →
  let f := equilibrium rho ux uz in
  node_mom2 fst fst f z x = at_ rho z x * (1 / 3 + at_ ux z x * at_ ux z x) ∧
  node_mom2 fst snd f z x = at_ rho z x * (at_ ux z x * at_ uz z x) ∧
  node_mom2 snd snd f z x = at_ rho z x * (1 / 3 + at_ uz z x * at_ uz z x).
Proof.
  intros Hr Hu Hv Hz Hx. cbn zeta. unfold node_mom2.
  rewrite (node_equilibrium nz nx) by done.
  apply feq_node_mom2.
Qed.

(** An instance: node (5, 10) of the density bump at rest. *)
Lemma equilibrium_second_moments_witness :
  let cfg := default_config in
  let f := equilibrium (rho_bump cfg) (u_init cfg) (u_init cfg) in
  node_mom2 fst fst f 5 10 =
    at_ (rho_bump cfg) 5 10 * (1 / 3 + at_ (u_init cfg) 5 10 * at_ (u_init cfg) 5 10) ∧
  node_mom2 fst snd f 5 10 =
    at_ (rho_bump cfg) 5 10 * (at_ (u_init cfg) 5 10 * at_ (u_init cfg) 5 10) ∧
  node_mom2 snd snd f 5 10 =
    at_ (rho_bump cfg) 5 10 * (1 / 3 + at_ (u_init cfg) 5 10 * at_ (u_init cfg) 5 10).
Proof.
  apply (equilibrium_second_moments (nz default_config) (nx default_config)).
  - apply shape_rho_bump.
  - apply shape_np_full.
  - apply shape_np_full.
  - simpl. lia.
  - simpl. lia.
Defined.

Lemma at_node (f : pops) i z x :
  (i < length f)%nat → at_ (f !!! i) z x = node f z x !!! i.
Proof.
  intros Hi. unfold node.
  by rewrite (list_lookup_total_fmap (λ g : list (list R), at_ g z x) f i Hi).
Qed.

(** X11: the tables and the equilibrium under reflection. For each
    direction [i], [opposite[i]] has the negated velocity and the same
    weight, the opposite of the opposite is [i], and the equilibrium of
    the opposite direction for the reversed velocity field equals the
    equilibrium of direction [i] at every node. *)
Theorem equilibrium_reflection nz nx rho ux uz i z x :
  shape nz nx rho → shape nz nx ux → shape nz nx uz →
  (i < 9)%nat → (z < nz)%nat → (x < nx)%nat →
  c !!! (opposite !!! i) = (- (c !!! i).1, - (c !!! i).2)%Z ∧
  w !!! (opposite !!! i) = w !!! i ∧
  opposite !!! (opposite !!! i) = i ∧
  at_ (equilibrium rho (gmap Ropp ux) (gmap Ropp uz) !!! (opposite !!! i)) z x =
    at_ (equilibrium rho ux uz !!! i) z x.
Proof.
  intros Hr Hu Hv Hi Hz Hx.
  assert (Hu' : shape nz nx (gmap Ropp ux)) by eauto with shape.
  assert (Hv' : shape nz nx (gmap Ropp uz)) by eauto with shape.
  assert (Hl : ∀ a b, shape nz nx a → shape nz nx b →
            length (equilibrium rho a b) = 9%nat).
  { intros a b Ha Hb. by destruct (pops_shape_equilibrium nz nx rho a b). }
  assert (Ho : (opposite !!! i < 9)%nat).
  { do 9 (destruct i as [|i]; [vm_compute; lia|]). lia. }
  rewrite !at_node by (rewrite Hl by done; done).
  rewrite !(node_equilibrium nz nx) by done.
  rewrite !(at_gmap nz nx) by done.
  generalize (at_ rho z x) (at_ ux z x) (at_ uz z x). intros r u v.
  do 9 (destruct i as [|i];
    [split_and!; [reflexivity..|];
     unfold w, c, opposite; cbn [zip_with lookup_total list_lookup_total];
     unfold feq_node; cbn [fst snd]; dec_unfold; field|]).
  lia.
Qed.

(** An instance: direction 1 (east) at node (5, 10) of the density bump. *)
Lemma equilibrium_reflection_witness :
  let cfg := default_config in
  c !!! (opposite !!! 1%nat) = (- (c !!! 1%nat).1, - (c !!! 1%nat).2)%Z ∧
  w !!! (opposite !!! 1%nat) = w !!! 1%nat ∧
  opposite !!! (opposite !!! 1%nat) = 1%nat ∧
  at_ (equilibrium (rho_bump cfg) (gmap Ropp (u_init cfg)) (gmap Ropp (u_init cfg))
         !!! (opposite !!! 1%nat)) 5 10 =
    at_ (equilibrium (rho_bump cfg) (u_init cfg) (u_init cfg) !!! 1%nat) 5 10.
Proof.
  apply (equilibrium_reflection (nz default_config) (nx default_config)).
  - apply shape_rho_bump.
  - apply shape_np_full.
  - apply shape_np_full.
  - lia.
  - simpl. lia.
  - simpl. lia.
Defined.

(** ** The normal *)

Lemma np_hypot_sqr a b : np_hypot a b * np_hypot a b = a * a + b * b.
Proof. unfold np_hypot. apply sqrt_sqrt. nra. Qed.

Lemma fin_normal_eq d :
  fin_normal d = (d / np_hypot 1.0 d, - (1.0 / np_hypot 1.0 d)).
Proof. unfold fin_normal. by rewrite tangent_never_degenerate. Qed.

(** The normal is [(d * q, - q)] for the inverse [q] of the norm of the
    tangent [(1, d)]. *)
Lemma fin_normal_inv d :
  ∃ q, fin_normal d = (d * q, - q) ∧ 0 < q ∧ q <= 1 ∧ (d * q) * (d * q) + q * q = 1.
Proof.
  rewrite fin_normal_eq.
  pose proof (np_hypot_1_ge d) as Hn. pose proof (np_hypot_sqr 1.0 d) as Hnn.
  assert (H10 : 1.0 = 1) by lra. rewrite H10 in *.
  revert Hn Hnn. generalize (np_hypot 1 d). intros n Hn Hnn.
  exists (/ n).
  assert (Hq : / n * n = 1) by (field; lra).
  assert (Hq0 : 0 < / n) by (apply Rinv_0_lt_compat; lra).
  split_and!.
  - f_equal; unfold Rdiv; ring.
  - done.
  - rewrite <-Rinv_1. apply Rinv_le_contravar; lra.
  - revert Hq Hq0. generalize (/ n). intros q Hq Hq0.
    replace (d * q * (d * q) + q * q) with (q * q * (1 * 1 + d * d)) by ring.
    rewrite <-Hnn. replace (q * q * (n * n)) with ((q * n) * (q * n)) by ring.
    rewrite Hq. ring.
Qed.

(** X12: the normal of the strips. For every slope the normal
    [(nx_hat, nz_hat)] has length 1, is orthogonal to the tangent
    [(1, dzdx)], and points towards smaller z: [nz_hat] is negative and
    [nx_hat] lies strictly between -1 and 1. *)
Theorem fin_normal_unit d :
  (fin_normal d).1 ^ 2 + (fin_normal d).2 ^ 2 = 1 ∧
  (fin_normal d).1 * 1.0 + (fin_normal d).2 * d = 0 ∧
  -1 < (fin_normal d).1 < 1 ∧ -1 <= (fin_normal d).2 < 0.
Proof.
  destruct (fin_normal_inv d) as (q & -> & Hq0 & Hq1 & Hsq).
  cbn [fst snd]. assert (H10 : 1.0 = 1) by lra. rewrite H10.
  split_and!; [simpl pow; lra|ring|nra..].
Qed.

Lemma fin_normal_bounds d :
  -1 <= (fin_normal d).1 <= 1 ∧ -1 <= (fin_normal d).2 <= 1.
Proof.
  destruct (fin_normal_inv d) as (q & -> & Hq0 & Hq1 & Hsq).
  cbn [fst snd]. split_and!; nra.
Qed.

(** ** The active columns *)

Lemma lookup_np_arange n k : (k < n)%nat → np_arange n !! k = Some (Z.of_nat k).
Proof.
  intros Hk. unfold np_arange. rewrite list_lookup_fmap, lookup_seq_lt by done. done.
Qed.

Lemma length_np_arange n : length (np_arange n) = n.
Proof. unfold np_arange. by rewrite length_fmap, length_seq. Qed.

Lemma lookup_xs_local cfg i x :
  xs_local cfg !! i = Some x →
  x = Z.of_nat (py_slice_bound (nx cfg) (x_start cfg) + i).
Proof.
  unfold xs_local, py_slice. rewrite length_np_arange.
  intros Hx. apply lookup_take_Some in Hx as [Hx Hi].
  rewrite lookup_drop in Hx.
  assert (Hlt := lookup_lt_Some _ _ _ Hx). rewrite length_np_arange in Hlt.
  rewrite lookup_np_arange in Hx by done. congruence.
Qed.

Lemma xs_local_succ cfg i x :
  xs_local cfg !! i = Some x → (S i < length (xs_local cfg))%nat →
  xs_local cfg !! S i = Some (x + 1)%Z.
Proof.
  intros Hx Hi. destruct (lookup_lt_is_Some_2 _ _ Hi) as [x' Hx'].
  rewrite Hx'. f_equal.
  apply lookup_xs_local in Hx, Hx'. lia.
Qed.

(** X13: the centerline is a wave that travels towards the tail. The
    height of the centerline at an active column at time [t] is found one
    column further after the time [1 / (lambda_fin * f_wave)]: the profile
    moves by [lambda_fin * f_wave] columns per time step. *)
Theorem centerline_travels cfg t i a :
  lambda_fin cfg ≠ 0 → f_wave cfg ≠ 0 →
  (S i < length (xs_local cfg))%nat →
  z_center cfg t !! i = Some a →
  z_center cfg (t + 1 / (lambda_fin cfg * f_wave cfg)) !! S i = Some a.
Proof.
  intros Hl Hf Hi. unfold z_center. rewrite !list_lookup_fmap.
  destruct (xs_local cfg !! i) as [x|] eqn:Hx; [|done].
  rewrite (xs_local_succ cfg i x) by done.
  cbn [fmap option_fmap option_map]. intros [= <-]. do 4 f_equal.
  rewrite plus_IZR. field. done.
Qed.

(** An instance: the script's fin, from column 30 at time 0 to column 31. *)
Lemma centerline_travels_witness :
  z_center default_config
    (0 + 1 / (lambda_fin default_config * f_wave default_config)) !! 1%nat = Some 17.
Proof.
  apply (centerline_travels default_config 0 0 17).
  - simpl. dec_unfold. lra.
  - simpl. dec_unfold. lra.
  - vm_compute. lia.
  - apply centerline_at_root.
Defined.

(** ** The offsets across the thickness *)

Lemma length_np_linspace a b n : length (np_linspace a b n) = n.
Proof.
  unfold np_linspace. cbn zeta.
  destruct (1 <? n)%nat; rewrite ?length_insert, length_fmap, length_seq; done.
Qed.

Lemma lookup_np_linspace a b n i :
  (1 < n)%nat → (i < n)%nat →
  np_linspace a b n !! i =
    Some (if decide (i = (n - 1)%nat) then b
          else a + INR i * ((b - a) / (INR n - 1))).
Proof.
  intros Hn Hi. unfold np_linspace. cbn zeta.
  destruct (Nat.ltb_spec 1 n) as [_|]; [|lia].
  destruct (decide (i = (n - 1)%nat)) as [->|Hne].
  - rewrite list_lookup_insert_eq; [done|]. rewrite length_fmap, length_seq. lia.
  - rewrite list_lookup_insert_ne by done.
    rewrite list_lookup_fmap, lookup_seq_lt by done. done.
Qed.

Lemma np_linspace_bounds a b n v :
  a <= b → v ∈ np_linspace a b n → a <= v <= b.
Proof.
  intros Hab Hv.
  assert (Hy : ∀ u, u ∈ (λ i : nat, a + INR i * ((b - a) / (INR n - 1))) <$> seq 0 n →
            a <= u <= b).
  { intros u Hu. apply list_elem_of_fmap in Hu as (i & -> & Hi).
    apply elem_of_seq in Hi as [_ Hi]. simpl in Hi.
    destruct (decide (n = 1%nat)) as [->|Hn1].
    - assert (i = 0%nat) as -> by lia. simpl. lra.
    - assert (Hin : INR i <= INR n - 1).
      { replace (INR n - 1) with (INR (n - 1)) by (rewrite minus_INR by lia; done).
        apply le_INR. lia. }
      assert (H0 : 0 <= INR i) by apply pos_INR.
      assert (Hpos : 0 < INR n - 1).
      { replace (INR n - 1) with (INR (n - 1)) by (rewrite minus_INR by lia; done).
        apply lt_0_INR. lia. }
      unfold Rdiv. rewrite <-Rmult_assoc, (Rmult_comm (INR i)), Rmult_assoc.
      assert (Hq : 0 <= INR i * / (INR n - 1) <= 1).
      { split.
        - apply Rmult_le_pos; [done|]. left. by apply Rinv_0_lt_compat.
        - apply (Rmult_le_reg_r (INR n - 1)); [done|].
          rewrite Rmult_assoc, Rinv_l by lra. lra. }
      revert Hq. generalize (INR i * / (INR n - 1)). intros q Hq. nra. }
  unfold np_linspace in Hv. cbn zeta in Hv.
  destruct (1 <? n)%nat; [|by apply Hy].
  apply list_elem_of_lookup in Hv as (i & Hv).
  apply list_lookup_insert_Some in Hv as [(_ & <- & _)|(_ & Hv)]; [lra|].
  apply Hy. by apply list_elem_of_lookup_2 in Hv.
Qed.

Lemma n_samples_bounds cfg :
  (6 ≤ n_samples cfg)%nat ∧ 2 * H_fin cfg - 1 < INR (n_samples cfg).
Proof.
  unfold n_samples, py_max, py_int.
  set (m := if Rlt_dec 6 (2 * H_fin cfg) then 2 * H_fin cfg else 6).
  assert (Hm : 6 <= m ∧ 2 * H_fin cfg <= m).
  { unfold m. destruct (Rlt_dec _ _); lra. }
  destruct (Rle_dec 0 m) as [_|]; [|lra].
  pose proof (Zfloor_bound m) as [Hf1 Hf2].
  assert (H6 : (6 ≤ Zfloor m)%Z).
  { apply Zfloor_lub. simpl. lra. }
  split.
  - lia.
  - rewrite INR_IZR_INZ, Z2Nat.id by lia. lra.
Qed.

Lemma s_vals_bounds cfg s :
  0 <= H_fin cfg → s ∈ s_vals cfg → -0.5 * H_fin cfg <= s <= 0.5 * H_fin cfg.
Proof.
  intros HH Hs. unfold s_vals in Hs.
  eapply np_linspace_bounds; [|done]. dec_unfold. lra.
Qed.

(** X14: the offsets across the thickness. For a thickness that is not
    negative there are at least 6 offsets, the first is [-H_fin / 2], the
    last is [H_fin / 2], all lie between the two, and two successive ones
    are at most 3/4 of a cell apart. *)
Theorem samples_dense cfg :
  0 <= H_fin cfg →
  (6 ≤ n_samples cfg)%nat ∧
  length (s_vals cfg) = n_samples cfg ∧
  s_vals cfg !! 0%nat = Some (-0.5 * H_fin cfg) ∧
  s_vals cfg !! (n_samples cfg - 1)%nat = Some (0.5 * H_fin cfg) ∧
  (∀ s, s ∈ s_vals cfg → -0.5 * H_fin cfg <= s <= 0.5 * H_fin cfg) ∧
  (∀ i a b, s_vals cfg !! i = Some a → s_vals cfg !! S i = Some b →
     0 <= b - a <= 3 / 4).
Proof.
  intros HH. destruct (n_samples_bounds cfg) as [Hn6 Hn].
  unfold s_vals. split_and!.
  - done.
  - apply length_np_linspace.
  - rewrite lookup_np_linspace by lia. rewrite decide_False by lia.
    f_equal. simpl. lra.
  - rewrite lookup_np_linspace by lia. by rewrite decide_True.
  - intros s Hs. by apply s_vals_bounds.
  - intros i a b Ha Hb.
    assert (Hi := lookup_lt_Some _ _ _ Hb). rewrite length_np_linspace in Hi.
    rewrite lookup_np_linspace in Ha, Hb by lia.
    rewrite decide_False in Ha by lia. injection Ha as <-.
    assert (Hpos : 5 <= INR (n_samples cfg) - 1).
    { apply (le_INR 6) in Hn6. simpl in Hn6. lra. }
    set (step := (0.5 * H_fin cfg - -0.5 * H_fin cfg) / (INR (n_samples cfg) - 1)) in *.
    assert (Hstep : step * (INR (n_samples cfg) - 1) = H_fin cfg).
    { unfold step. dec_unfold. field. lra. }
    assert (Hs0 : 0 <= step <= 3 / 4).
    { clearbody step. split; [nra|].
      destruct (Rle_dec (H_fin cfg) (15 / 4)); nra. }
    assert (Hba : b - (-0.5 * H_fin cfg + INR i * step) = step).
    { destruct (decide (S i = (n_samples cfg - 1)%nat)) as [Hlast|_].
      - injection Hb as <-.
        assert (INR i = INR (n_samples cfg) - 1 - 1) as ->.
        { assert (Hn2 : INR (n_samples cfg) = INR (i + 2)) by (f_equal; lia).
          rewrite Hn2, plus_INR. simpl. lra. }
        clearbody step. dec_unfold. nra.
      - rewrite S_INR in Hb. injection Hb as <-. fold step. ring. }
    rewrite Hba. done.
Qed.

(** An instance: the script's thickness, 18. *)
Lemma samples_dense_witness :
  let cfg := default_config in
  (6 ≤ n_samples cfg)%nat ∧
  length (s_vals cfg) = n_samples cfg ∧
  s_vals cfg !! 0%nat = Some (-0.5 * H_fin cfg) ∧
  s_vals cfg !! (n_samples cfg - 1)%nat = Some (0.5 * H_fin cfg) ∧
  (∀ s, s ∈ s_vals cfg → -0.5 * H_fin cfg <= s <= 0.5 * H_fin cfg) ∧
  (∀ i a b, s_vals cfg !! i = Some a → s_vals cfg !! S i = Some b →
     0 <= b - a <= 3 / 4).
Proof.
  apply (samples_dense default_config). simpl. lra.
Defined.

(** ** The band *)

Lemma py_round_bound r : IZR (py_round r) - 1 / 2 <= r <= IZR (py_round r) + 1 / 2.
Proof.
  unfold py_round. cbn zeta. pose proof (Zfloor_bound r) as [Hf1 Hf2].
  destruct (Rlt_dec _ _) as [Hd|Hd]; [lra|].
  destruct (Rlt_dec _ _) as [Hd'|Hd']; [rewrite plus_IZR; lra|].
  destruct (Z.even _); [lra|rewrite plus_IZR; lra].
Qed.

Lemma fold_left_invariant_in {S I : Type} (P : S → Prop) (F : S → I → S) l s :
  (∀ s i, i ∈ l → P s → P (F s i)) → P s → P (fold_left F l s).
Proof.
  revert s. induction l as [|i l IH]; intros s HF Hs; [done|].
  simpl. apply IH.
  - intros s' j Hj. apply HF. by apply list_elem_of_further.
  - apply HF; [apply list_elem_of_here|done].
Qed.

Lemma z_center_bounds cfg t z_c :
  z_c ∈ z_center cfg t →
  z_root cfg + 0.5 * H_fin cfg - Rabs (A_fin cfg) <= z_c
    <= z_root cfg + 0.5 * H_fin cfg + Rabs (A_fin cfg).
Proof.
  unfold z_center. rewrite <-list_fmap_compose.
  intros Hz. apply list_elem_of_fmap in Hz as (x & -> & _). simpl.
  match goal with |- context [sin ?p] => pose proof (SIN_bound p) as [Hs1 Hs2];
    revert Hs1 Hs2; generalize (sin p) end.
  intros sn Hs1 Hs2. unfold Rabs. destruct (Rcase_abs _); nra.
Qed.

Lemma mult_bound a s h : -1 <= a <= 1 → - h <= s <= h → - h <= a * s <= h.
Proof. intros. nra. Qed.

Lemma band_mark_sample cfg x_c z_c d m s :
  x_c ∈ xs_local cfg →
  z_root cfg + 0.5 * H_fin cfg - Rabs (A_fin cfg) <= z_c
    <= z_root cfg + 0.5 * H_fin cfg + Rabs (A_fin cfg) →
  -0.5 * H_fin cfg <= s <= 0.5 * H_fin cfg →
  (∀ iz ix, glookup m iz ix = Some true → in_fin_band cfg iz ix) →
  ∀ iz ix, glookup (mark_sample cfg x_c z_c (fin_normal d) m s) iz ix = Some true →
    in_fin_band cfg iz ix.
Proof.
  intros Hx Hz Hs Hm iz ix. unfold mark_sample. cbn zeta.
  destruct (in_interior cfg _ _) eqn:Hin; [|apply Hm].
  intros Hset. apply glookup_grid_set in Hset as [?|(-> & -> & _)]; [by apply Hm|].
  unfold in_interior in Hin. repeat (apply andb_prop in Hin as [Hin ?]).
  destruct (fin_normal_bounds d) as [Hn1 Hn2].
  assert (Hs' : - (0.5 * H_fin cfg) <= s <= 0.5 * H_fin cfg) by lra.
  pose proof (mult_bound _ _ _ Hn1 Hs') as Hb1.
  pose proof (mult_bound _ _ _ Hn2 Hs') as Hb2.
  pose proof (py_round_bound (IZR x_c + (fin_normal d).1 * s)) as Hr1.
  pose proof (py_round_bound (z_c + (fin_normal d).2 * s)) as Hr2.
  unfold in_fin_band. rewrite !INR_IZR_INZ, !Z2Nat.id by lia.
  split.
  - exists x_c. split; [done|]. unfold Rabs. destruct (Rcase_abs _); dec_unfold; lra.
  - dec_unfold. lra.
Qed.

(** X15: the fin stays in a band around the centerline. Every node of the
    generated mask lies within [H_fin / 2 + 1/2] of an active column in x,
    and between [z_root - |A_fin| - 1/2] and
    [z_root + H_fin + |A_fin| + 1/2] in z. *)
Theorem fin_mask_in_band cfg t fin_mask iz ix :
  0 <= H_fin cfg →
  update_fin_mask cfg t = Ok fin_mask →
  glookup fin_mask iz ix = Some true →
  in_fin_band cfg iz ix.
Proof.
  intros HH. unfold update_fin_mask, rasterize.
  destruct (dzdx_of (z_center cfg t)) as [dz|e]; simpl; [|done].
  destruct (Req_dec_T (lambda_fin cfg) 0); [done|].
  intros [= <-]. revert iz ix.
  apply (fold_left_invariant_in
           (λ m, ∀ iz ix, glookup m iz ix = Some true → in_fin_band cfg iz ix)).
  - intros m [[x_c z_c] d] Hcol Hm. unfold mark_column.
    apply elem_of_zip_l in Hcol.
    assert (Hxc := elem_of_zip_l _ _ _ _ Hcol).
    assert (Hzc := elem_of_zip_r _ _ _ _ Hcol).
    apply z_center_bounds in Hzc.
    apply (fold_left_invariant_in
             (λ m, ∀ iz ix, glookup m iz ix = Some true → in_fin_band cfg iz ix));
      [|done].
    intros m' s Hs Hm'. apply band_mark_sample; auto using s_vals_bounds.
  - intros iz ix Hm. exfalso. unfold glookup, np_full in Hm.
    apply bind_Some in Hm as (row & Hrow & Hm).
    apply lookup_replicate in Hrow as [-> _].
    apply lookup_replicate in Hm as [? _]. discriminate.
Qed.

(** An instance: node (1, 1) of the flat fin on the 4 x 4 grid. *)
Lemma fin_mask_in_band_witness : in_fin_band flat_config 1 1.
Proof.
  apply (fin_mask_in_band flat_config 0
           [ [false; false; false; false];
             [false; true;  true;  false];
             [false; true;  true;  false];
             [false; false; false; false] ] 1 1).
  - simpl. lra.
  - apply update_fin_mask_flat.
  - reflexivity.
Defined.

(** ** The ways the generator fails *)

Lemma py_slice_bound_le n i : (py_slice_bound n i ≤ n)%nat.
Proof. unfold py_slice_bound. destruct (Z.ltb_spec i 0); lia. Qed.

Lemma length_xs_local cfg :
  length (xs_local cfg) =
    (py_slice_bound (nx cfg) (x_end cfg) - py_slice_bound (nx cfg) (x_start cfg))%nat.
Proof.
  unfold xs_local, py_slice. rewrite length_np_arange.
  rewrite length_take, length_drop, length_np_arange.
  pose proof (py_slice_bound_le (nx cfg) (x_end cfg)). lia.
Qed.

(** X16: the outcomes of the geometry generator. [update_fin_mask] raises
    an IndexError exactly when fewer than two columns are active, a
    ValueError exactly when at least two are active and [lambda_fin] is 0,
    and returns a mask in all other cases, at every time; the number of
    active columns is the distance between the two slice bounds. *)
Theorem update_fin_mask_outcome cfg t :
  (update_fin_mask cfg t = Raise IndexError ↔ (length (xs_local cfg) < 2)%nat) ∧
  (update_fin_mask cfg t = Raise ValueError ↔
     (2 ≤ length (xs_local cfg))%nat ∧ lambda_fin cfg = 0) ∧
  ((∃ m, update_fin_mask cfg t = Ok m) ↔
     (2 ≤ length (xs_local cfg))%nat ∧ lambda_fin cfg ≠ 0) ∧
  length (xs_local cfg) =
    (py_slice_bound (nx cfg) (x_end cfg) - py_slice_bound (nx cfg) (x_start cfg))%nat.
Proof.
  destruct (decide (length (xs_local cfg) < 2)%nat) as [Hshort|Hlong].
  { rewrite (update_fin_mask_short cfg t Hshort).
    split_and!; [| | |apply length_xs_local].
    - split; done.
    - split; [done|]. intros [? _]. lia.
    - split; [intros [m ?]; done|intros [? _]; lia]. }
  destruct (Req_dec_T (lambda_fin cfg) 0) as [Hl|Hl].
  { rewrite (update_fin_mask_nan cfg t) by (done || lia).
    split_and!; [| | |apply length_xs_local].
    - split; [done|lia].
    - split; [intros _; split; [lia|done]|done].
    - split; [intros [m ?]; done|intros [_ ?]; done]. }
  destruct (update_fin_mask_ok cfg t) as (m & -> & _); [split; [lia|done]|].
  split_and!; [| | |apply length_xs_local].
  - split; [done|lia].
  - split; [done|intros [_ ?]; done].
  - split; [intros _; split; [lia|done]|intros _; by eexists].
Qed.

(** X17: an error of the geometry generator stops the run. When
    [update_fin_mask] raises at one time it raises the same error at every
    time, every step raises it whatever the state, and so does every frame
    of [update] that has at least one step. *)
Theorem geometry_error_stops_run cfg t e :
  update_fin_mask cfg t = Raise e →
  (∀ t', update_fin_mask cfg t' = Raise e) ∧
  (∀ f rho ux uz t', collide_and_stream cfg f rho ux uz t' = Raise e) ∧
  (∀ plot_every frame s, update cfg (S plot_every) frame s = Raise e).
Proof.
  intros Herr.
  assert (Hall : ∀ t', update_fin_mask cfg t' = Raise e).
  { intros t'.
    destruct (decide (length (xs_local cfg) < 2)%nat) as [Hshort|Hlong].
    - rewrite (update_fin_mask_short cfg t Hshort) in Herr.
      by rewrite (update_fin_mask_short cfg t' Hshort).
    - destruct (Req_dec_T (lambda_fin cfg) 0) as [Hl|Hl].
      + rewrite (update_fin_mask_nan cfg t) in Herr by (done || lia).
        by rewrite (update_fin_mask_nan cfg t') by (done || lia).
      + destruct (update_fin_mask_ok cfg t) as (m & Hm & _); [split; [lia|done]|].
        congruence. }
  assert (Hstep : ∀ f rho ux uz t', collide_and_stream cfg f rho ux uz t' = Raise e).
  { intros f rho ux uz t'. unfold collide_and_stream. by rewrite Hall. }
  split_and!; [done..|].
  intros plot_every frame [[[f rho] ux] uz]. unfold update.
  cbn [seq fmap list_fmap run_steps]. by rewrite Hstep.
Qed.

(** An instance: a fin with a single active column. *)
Lemma geometry_error_stops_run_witness :
  (∀ t', update_fin_mask short_config t' = Raise IndexError) ∧
  (∀ f rho ux uz t', collide_and_stream short_config f rho ux uz t' = Raise IndexError) ∧
  (∀ plot_every frame s, update short_config (S plot_every) frame s = Raise IndexError).
Proof.
  apply (geometry_error_stops_run short_config 0 IndexError).
  apply update_fin_mask_short. vm_compute. lia.
Defined.


(** * Properties of the gait waves *)


(** ** The local minima *)

(** On a small input. *)
Example trough_example :
  trough_indices [3; 1; 2; 0; 5] = [1; 3]%nat.
Proof.
  unfold trough_indices, py_slice, py_slice_from, np_less. simpl.
  repeat case_bool_decide; try lra; reflexivity.
Qed.

Lemma elem_of_nonzero_from k m i :
  i ∈ nonzero_from k m ↔ (k ≤ i)%nat ∧ m !! (i - k)%nat = Some true.
Proof.
  revert k. induction m as [|b m IH]; intros k; simpl.
  - rewrite elem_of_nil, lookup_nil. split; [done|]. by intros [_ ?].
  - assert (Hstep : i ∈ nonzero_from (S k) m ↔
                    (k < i)%nat ∧ (b :: m) !! (i - k)%nat = Some true).
    { rewrite IH. split.
      - intros [Hk Hm]. split; [lia|].
        replace (i - k)%nat with (S (i - S k)) by lia. done.
      - intros [Hk Hm]. split; [lia|].
        replace (i - k)%nat with (S (i - S k)) in Hm by lia. done. }
    destruct b.
    + rewrite elem_of_cons, Hstep. split.
      * intros [->|[? ?]]; [|split; [lia|done]].
        split; [lia|]. by rewrite Nat.sub_diag.
      * intros [Hk Hm]. destruct (decide (i = k)) as [->|]; [by left|].
        right. split; [lia|done].
    + rewrite Hstep. split.
      * intros [? ?]. split; [lia|done].
      * intros [Hk Hm]. destruct (decide (i = k)) as [->|].
        -- by rewrite Nat.sub_diag in Hm.
        -- split; [lia|done].
Qed.

Lemma nonzero_from_sorted k m : StronglySorted lt (nonzero_from k m).
Proof.
  revert k. induction m as [|b m IH]; intros k; simpl; [constructor|].
  destruct b; [|apply IH].
  constructor; [apply IH|].
  apply Forall_forall. intros i Hi. apply elem_of_nonzero_from in Hi. lia.
Qed.

Lemma StronglySorted_fmap_succ (l : list nat) :
  StronglySorted lt l → StronglySorted lt ((λ i, (i + 1)%nat) <$> l).
Proof.
  induction 1 as [|i l Hs IH Hall]; simpl; constructor; [done|].
  apply Forall_fmap. eapply Forall_impl; [done|]. simpl. lia.
Qed.

(** The three shifted views of the heights. *)
Lemma py_slice_bound_pos n (i : Z) :
  (0 ≤ i)%Z → py_slice_bound n i = Z.to_nat (Z.min i (Z.of_nat n)).
Proof. intros Hi. unfold py_slice_bound. by rewrite (proj2 (Z.ltb_ge i 0)). Qed.

Lemma py_slice_bound_neg n (i : Z) :
  (i < 0)%Z → py_slice_bound n i = Z.to_nat (Z.max (i + Z.of_nat n) 0).
Proof. intros Hi. unfold py_slice_bound. by rewrite (proj2 (Z.ltb_lt i 0)). Qed.

Lemma lookup_mid (wh : list R) j :
  (j + 2 < length wh)%nat → py_slice wh 1 (-1) !! j = wh !! (j + 1)%nat.
Proof.
  intros Hj. unfold py_slice.
  rewrite (py_slice_bound_pos _ 1), (py_slice_bound_neg _ (-1)) by lia.
  rewrite lookup_take_lt by lia. rewrite lookup_drop. f_equal. lia.
Qed.

Lemma lookup_before (wh : list R) j :
  (j + 2 < length wh)%nat → py_slice wh 0 (-2) !! j = wh !! j.
Proof.
  intros Hj. unfold py_slice.
  rewrite (py_slice_bound_pos _ 0), (py_slice_bound_neg _ (-2)) by lia.
  rewrite lookup_take_lt by lia. rewrite lookup_drop. f_equal. lia.
Qed.

Lemma lookup_after (wh : list R) j :
  py_slice_from wh 2 !! j = wh !! (j + 2)%nat.
Proof.
  unfold py_slice_from. rewrite py_slice_bound_pos by lia.
  destruct (decide (j + 2 < length wh)%nat).
  - rewrite lookup_drop. f_equal. lia.
  - rewrite !lookup_ge_None_2; [done|lia|rewrite length_drop; lia].
Qed.

Lemma length_mid (wh : list R) : length (py_slice wh 1 (-1)) = (length wh - 2)%nat.
Proof.
  unfold py_slice. rewrite (py_slice_bound_pos _ 1), (py_slice_bound_neg _ (-1)) by lia.
  rewrite length_take, length_drop. lia.
Qed.

Lemma length_before (wh : list R) : length (py_slice wh 0 (-2)) = (length wh - 2)%nat.
Proof.
  unfold py_slice. rewrite (py_slice_bound_pos _ 0), (py_slice_bound_neg _ (-2)) by lia.
  rewrite length_take, length_drop. lia.
Qed.

Lemma length_after (wh : list R) : length (py_slice_from wh 2) = (length wh - 2)%nat.
Proof.
  unfold py_slice_from. rewrite py_slice_bound_pos by lia.
  rewrite length_drop. lia.
Qed.

Lemma elem_of_trough_indices wh i : i ∈ trough_indices wh ↔ local_min wh i.
Proof.
  unfold trough_indices, np_nonzero. rewrite list_elem_of_fmap. split.
  - intros (j & -> & Hj). apply elem_of_nonzero_from in Hj as [_ Hj].
    rewrite Nat.sub_0_r in Hj. rewrite lookup_zip_with in Hj.
    apply bind_Some in Hj as (b1 & Hb1 & Hj).
    apply bind_Some in Hj as (b2 & Hb2 & [= Hand]).
    apply andb_prop in Hand as [-> ->].
    unfold np_less in *. rewrite lookup_zip_with in Hb1, Hb2.
    apply bind_Some in Hb1 as (b & Hb & Hb1).
    apply bind_Some in Hb1 as (a & Ha & [= Hba]).
    apply bind_Some in Hb2 as (b' & Hb' & Hb2).
    apply bind_Some in Hb2 as (c' & Hc & [= Hbc]).
    apply bool_decide_eq_true in Hba, Hbc.
    assert (b' = b) as -> by congruence.
    assert (Hlen : (j + 2 < length wh)%nat).
    { apply lookup_lt_Some in Hb. rewrite length_mid in Hb. lia. }
    rewrite lookup_mid in Hb by done. rewrite lookup_before in Ha by done.
    rewrite lookup_after in Hc.
    exists a, b, c'. replace (j + 1 - 1)%nat with j by lia.
    replace (j + 1 + 1)%nat with (j + 2)%nat by lia. split_and!; (done || lia).
  - intros (a & b & c' & Hi & Ha & Hb & Hc & Hba & Hbc).
    exists (i - 1)%nat. split; [lia|].
    apply elem_of_nonzero_from. split; [lia|]. rewrite Nat.sub_0_r.
    assert (Hlen : (i - 1 + 2 < length wh)%nat).
    { apply lookup_lt_Some in Hc. lia. }
    unfold np_less. rewrite !lookup_zip_with.
    rewrite lookup_mid, lookup_before, lookup_after by done.
    replace (i - 1 + 1)%nat with i by lia.
    replace (i - 1 + 2)%nat with (i + 1)%nat by lia.
    rewrite Ha, Hb, Hc. simpl.
    by rewrite !bool_decide_true by done.
Qed.

Lemma trough_indices_sorted wh : StronglySorted lt (trough_indices wh).
Proof. apply StronglySorted_fmap_succ, nonzero_from_sorted. Qed.

Lemma np_take_ok {A} `{Inhabited A} (xs : list A) (idx : list nat) :
  Forall (λ i, (i < length xs)%nat) idx →
  np_take xs idx = Ok ((λ i, xs !!! i) <$> idx).
Proof.
  induction 1 as [|i idx Hi Hall IH]; [done|]. simpl.
  rewrite (list_lookup_lookup_total_lt xs i Hi), IH. done.
Qed.

Lemma np_take_raise {A} (xs : list A) (idx : list nat) :
  Exists (λ i, (length xs ≤ i)%nat) idx → np_take xs idx = Raise IndexError.
Proof.
  induction 1 as [i idx Hi|i idx Hex IH]; simpl.
  - by rewrite lookup_ge_None_2.
  - destruct (xs !! i); [|done]. by rewrite IH.
Qed.

Lemma local_min_range wh i : local_min wh i → (1 ≤ i)%nat ∧ (i + 2 ≤ length wh)%nat.
Proof.
  intros (a & b & c' & Hi & _ & _ & Hc & _). apply lookup_lt_Some in Hc. lia.
Qed.

Lemma find_troughs_ok (x_positions wave_heights : list R) :
  (length wave_heights ≤ length x_positions + 1)%nat →
  find_troughs x_positions wave_heights =
    Ok ((λ i, x_positions !!! i) <$> trough_indices wave_heights).
Proof.
  intros Hlen. apply np_take_ok. apply Forall_forall. intros i Hi.
  apply elem_of_trough_indices, local_min_range in Hi. lia.
Qed.

(** X18: what [find_troughs] returns. When [x_positions] has at least as
    many entries as the heights without their last one, the function
    returns the positions at the trough indices; an index is a trough index
    exactly when the height there has both neighbours and is strictly below
    each of them; and the trough indices are strictly increasing. *)
Theorem find_troughs_spec (x_positions wave_heights : list R) :
  (length wave_heights ≤ length x_positions + 1)%nat →
  find_troughs x_positions wave_heights =
    Ok ((λ i, x_positions !!! i) <$> trough_indices wave_heights) ∧
  (∀ i, i ∈ trough_indices wave_heights ↔ local_min wave_heights i) ∧
  StronglySorted lt (trough_indices wave_heights).
Proof.
  intros Hlen. split_and!.
  - by apply find_troughs_ok.
  - apply elem_of_trough_indices.
  - apply trough_indices_sorted.
Qed.

(** An instance: heights with minima at the indices 1 and 3. *)
Lemma find_troughs_spec_witness :
  find_troughs [0; 10; 20; 30; 40] [3; 1; 2; 0; 5] =
    Ok ((λ i, [0; 10; 20; 30; 40] !!! i) <$> trough_indices [3; 1; 2; 0; 5]) ∧
  (∀ i, i ∈ trough_indices [3; 1; 2; 0; 5] ↔ local_min [3; 1; 2; 0; 5] i) ∧
  StronglySorted lt (trough_indices [3; 1; 2; 0; 5]).
Proof. apply (find_troughs_spec [0; 10; 20; 30; 40] [3; 1; 2; 0; 5]). simpl. lia. Defined.

(** X19: when [find_troughs] fails. It raises an IndexError exactly when
    some strict local minimum of the heights sits at an index that is past
    the end of [x_positions]. *)
Theorem find_troughs_index_error (x_positions wave_heights : list R) :
  find_troughs x_positions wave_heights = Raise IndexError ↔
  ∃ i, local_min wave_heights i ∧ (length x_positions ≤ i)%nat.
Proof.
  split.
  - intros Hr.
    destruct (decide (Forall (λ i, (i < length x_positions)%nat)
                (trough_indices wave_heights))) as [Hall|Hnot].
    + unfold find_troughs in Hr. by rewrite np_take_ok in Hr.
    + apply not_Forall_Exists in Hnot; [|solve_decision].
      apply Exists_exists in Hnot as (i & Hi & Hge).
      exists i. split; [by apply elem_of_trough_indices|]. simpl in Hge. lia.
  - intros (i & Hi & Hge). apply np_take_raise.
    apply Exists_exists. exists i. split; [by apply elem_of_trough_indices|done].
Qed.

(** X20: troughs are isolated. A trough index is never the first nor the
    last index of the heights, and the index after a trough index is not a
    trough index. *)
Theorem troughs_isolated wave_heights i :
  i ∈ trough_indices wave_heights →
  (1 ≤ i)%nat ∧ (i + 2 ≤ length wave_heights)%nat ∧
  (i + 1)%nat ∉ trough_indices wave_heights.
Proof.
  intros Hi. apply elem_of_trough_indices in Hi.
  destruct (local_min_range _ _ Hi) as [? ?]. split_and!; [done..|].
  intros Hn. apply elem_of_trough_indices in Hn.
  destruct Hi as (a & b & c' & _ & _ & Hb & Hc & _ & Hbc).
  destruct Hn as (a' & b' & c'' & _ & Ha' & Hb' & _ & Hba' & _).
  replace (i + 1 - 1)%nat with i in Ha' by lia. simplify_eq. lra.
Qed.

(** An instance: index 1 of heights with minima at 1 and 3. *)
Lemma troughs_isolated_witness :
  (1 ≤ 1)%nat ∧ (1 + 2 ≤ length [3; 1; 2; 0; 5])%nat ∧
  (1 + 1)%nat ∉ trough_indices [3; 1; 2; 0; 5].
Proof.
  apply (troughs_isolated [3; 1; 2; 0; 5] 1).
  rewrite trough_example. apply list_elem_of_here.
Defined.

Lemma trough_indices_nil wh :
  (∀ i, ¬ local_min wh i) → trough_indices wh = [].
Proof.
  intros Hno. destruct (trough_indices wh) as [|i l] eqn:Heq; [done|].
  destruct (Hno i). apply elem_of_trough_indices. rewrite Heq. by left.
Qed.

(** X21: no troughs without an interior minimum. For heights with fewer
    than three entries, or that never decrease, or that never increase,
    [find_troughs] returns the empty array, whatever [x_positions] is. *)
Theorem no_troughs_when_monotone (x_positions wave_heights : list R) :
  (length wave_heights < 3)%nat ∨
  (∀ i a b, wave_heights !! i = Some a → wave_heights !! (i + 1)%nat = Some b → a <= b) ∨
  (∀ i a b, wave_heights !! i = Some a → wave_heights !! (i + 1)%nat = Some b → b <= a) →
  find_troughs x_positions wave_heights = Ok [].
Proof.
  intros Hcase. unfold find_troughs. rewrite trough_indices_nil; [done|].
  intros i Hi. pose proof (local_min_range _ _ Hi) as [Hi1 Hi2].
  destruct Hi as (a & b & c' & _ & Ha & Hb & Hc & Hba & Hbc).
  destruct Hcase as [Hshort|[Hinc|Hdec]].
  - lia.
  - specialize (Hinc (i - 1)%nat a b Ha).
    replace (i - 1 + 1)%nat with i in Hinc by lia. specialize (Hinc Hb). lra.
  - specialize (Hdec i b c' Hb Hc). lra.
Qed.

(** An instance: heights that increase. *)
Lemma no_troughs_when_monotone_witness :
  find_troughs [0; 10; 20] [1; 2; 3] = Ok [].
Proof.
  apply (no_troughs_when_monotone [0; 10; 20] [1; 2; 3]).
  right. left. intros i a b Ha Hb.
  destruct i as [|[|[|i]]]; simpl in Ha, Hb; simplify_eq; lra.
Defined.

Lemma length_x_positions g : length (x_positions g) = n_points g.
Proof. apply length_np_linspace. Qed.

Lemma lookup_x_positions_0 g : (1 < n_points g)%nat → x_positions g !! 0%nat = Some 0.
Proof.
  intros Hn. unfold x_positions. rewrite lookup_np_linspace by lia.
  rewrite decide_False by lia. f_equal. simpl. lra.
Qed.

Lemma length_left_heights g n : length (left_heights g n) = n_points g.
Proof. unfold left_heights. by rewrite length_fmap, length_x_positions. Qed.

Lemma length_right_heights g n : length (right_heights g n) = n_points g.
Proof. unfold right_heights. by rewrite length_fmap, length_x_positions. Qed.

Lemma lookup_left_heights g n i :
  left_heights g n !! i =
    (λ x, left_baseline g + AMPLITUDE g * sin (gait_phase g n x)) <$> x_positions g !! i.
Proof. unfold left_heights. by rewrite list_lookup_fmap. Qed.

Lemma lookup_right_heights g n i :
  right_heights g n !! i =
    (λ x, right_baseline g - AMPLITUDE g * sin (gait_phase g n x)) <$> x_positions g !! i.
Proof.
  unfold right_heights. rewrite list_lookup_fmap.
  destruct (x_positions g !! i) as [x|]; [|done]. simpl. f_equal.
  unfold gait_phase. rewrite neg_sin. lra.
Qed.

(** X22: what [update_frame] hands to the plot. For every frame the
    function returns (the trough lookup never fails): both waves are drawn
    over [x_positions] and have its length; the trough markers of each side
    sit at the positions of the trough indices of that side's heights, and
    all of them at the height of that side's baseline, one per position. *)
Theorem update_frame_data g frame_number :
  ∃ d, update_frame g frame_number = Ok d ∧
    d.(left_wave) = (x_positions g, left_heights g frame_number) ∧
    d.(right_wave) = (x_positions g, right_heights g frame_number) ∧
    length (left_heights g frame_number) = n_points g ∧
    length (right_heights g frame_number) = n_points g ∧
    d.(left_troughs).1 =
      (λ i, x_positions g !!! i) <$> trough_indices (left_heights g frame_number) ∧
    d.(right_troughs).1 =
      (λ i, x_positions g !!! i) <$> trough_indices (right_heights g frame_number) ∧
    Forall (λ y, y = left_baseline g) d.(left_troughs).2 ∧
    Forall (λ y, y = right_baseline g) d.(right_troughs).2 ∧
    length d.(left_troughs).2 = length d.(left_troughs).1 ∧
    length d.(right_troughs).2 = length d.(right_troughs).1.
Proof.
  unfold update_frame.
  rewrite (find_troughs_ok (x_positions g) (left_heights g frame_number))
    by (rewrite length_left_heights, length_x_positions; lia).
  rewrite (find_troughs_ok (x_positions g) (right_heights g frame_number))
    by (rewrite length_right_heights, length_x_positions; lia).
  eexists. split; [reflexivity|]. simpl.
  rewrite length_left_heights, length_right_heights, !length_replicate.
  split_and!; try done; apply Forall_replicate; done.
Qed.

(** X23: the two fins move in antiphase. At every sample and every frame
    the displacement of the right wave from its baseline is the negated
    displacement of the left wave from its own, and neither exceeds the
    amplitude. *)
Theorem waves_in_antiphase g frame_number i l r :
  left_heights g frame_number !! i = Some l →
  right_heights g frame_number !! i = Some r →
  r - right_baseline g = - (l - left_baseline g) ∧
  Rabs (l - left_baseline g) <= Rabs (AMPLITUDE g).
Proof.
  rewrite lookup_left_heights, lookup_right_heights.
  destruct (x_positions g !! i) as [x|]; [|done]. simpl.
  intros [= <-] [= <-]. split; [lra|].
  replace (left_baseline g + AMPLITUDE g * sin (gait_phase g frame_number x)
           - left_baseline g)
    with (AMPLITUDE g * sin (gait_phase g frame_number x)) by lra.
  rewrite Rabs_mult. rewrite <-(Rmult_1_r (Rabs (AMPLITUDE g))) at 2.
  apply Rmult_le_compat_l; [apply Rabs_pos|].
  apply Rabs_le. pose proof (SIN_bound (gait_phase g frame_number x)). lra.
Qed.

(** An instance: the first sample of frame 0 with the script's
    parameters. *)
Lemma waves_in_antiphase_witness :
  let g := default_gait in
  let l := left_baseline g + AMPLITUDE g * sin (gait_phase g 0 0) in
  let r := right_baseline g - AMPLITUDE g * sin (gait_phase g 0 0) in
  r - right_baseline g = - (l - left_baseline g) ∧
  Rabs (l - left_baseline g) <= Rabs (AMPLITUDE g).
Proof.
  apply (waves_in_antiphase default_gait 0 0).
  - rewrite lookup_left_heights, lookup_x_positions_0 by (simpl; lia). reflexivity.
  - rewrite lookup_right_heights, lookup_x_positions_0 by (simpl; lia). reflexivity.
Defined.

(** X24: the troughs of the two fins never coincide. At no frame is an
    index a trough index of the left heights and of the right heights. *)
Theorem troughs_never_coincide g frame_number i :
  ¬ (i ∈ trough_indices (left_heights g frame_number) ∧
     i ∈ trough_indices (right_heights g frame_number)).
Proof.
  intros [Hl Hr]. apply elem_of_trough_indices in Hl, Hr.
  destruct Hl as (a & b & c' & _ & Ha & Hb & _ & Hba & _).
  destruct Hr as (a' & b' & c'' & _ & Ha' & Hb' & _ & Hba' & _).
  rewrite lookup_left_heights in Ha, Hb. rewrite lookup_right_heights in Ha', Hb'.
  destruct (x_positions g !! i) as [x|]; [|done].
  destruct (x_positions g !! (i - 1)%nat) as [x'|]; [|done].
  simpl in *. simplify_eq. lra.
Qed.

Lemma left_heights_period g n N (k : nat) :
  TEMPORAL_FREQ g * (INR N * 0.05) = 2 * INR k * PI →
  left_heights g (n + N) = left_heights g n.
Proof.
  intros Hper. unfold left_heights. apply list_fmap_ext. intros _ x _. simpl.
  do 2 f_equal. rewrite <-(sin_period _ k). f_equal.
  rewrite plus_INR. lra.
Qed.

Lemma right_heights_period g n N (k : nat) :
  TEMPORAL_FREQ g * (INR N * 0.05) = 2 * INR k * PI →
  right_heights g (n + N) = right_heights g n.
Proof.
  intros Hper. unfold right_heights. apply list_fmap_ext. intros _ x _. simpl.
  do 2 f_equal. rewrite <-(sin_period _ k). f_equal.
  rewrite plus_INR. lra.
Qed.

(** X25: the animation is periodic. When [N] frames span a whole number
    of periods of the wave ([TEMPORAL_FREQ * N * 0.05] is a multiple of
    [2 pi]), frame [n + N] is frame [n]; with the script's parameters
    [total_frames] is 80 and spans one period, so the saved loop closes. *)
Theorem update_frame_periodic g n N (k : nat) :
  TEMPORAL_FREQ g * (INR N * 0.05) = 2 * INR k * PI →
  update_frame g (n + N) = update_frame g n.
Proof.
  intros Hper. unfold update_frame.
  by rewrite (left_heights_period g n N k), (right_heights_period g n N k).
Qed.

Lemma total_frames_default : total_frames default_gait = 80%nat.
Proof.
  unfold total_frames. simpl TEMPORAL_FREQ.
  replace (2 * PI / (0.5 * PI) / 0.05) with 80.
  - unfold py_int. destruct (Rle_dec 0 80) as [_|]; [|lra]. by rewrite ZfloorZ.
  - pose proof PI_neq0. cbv [Q2R QArith_base.Qnum QArith_base.Qden]. field. done.
Qed.

(** An instance: the script's parameters and [total_frames]. *)
Lemma update_frame_periodic_witness :
  update_frame default_gait (0 + total_frames default_gait) =
    update_frame default_gait 0.
Proof.
  apply (update_frame_periodic default_gait 0 (total_frames default_gait) 1).
  rewrite total_frames_default. simpl.
  cbv [Q2R QArith_base.Qnum QArith_base.Qden]. lra.
Defined.
